(** * Generic repository over a relational store

    A shallow embedding of [backend/src/repositories/base.py]: the class
    [BaseRepository] with its nine operations, run against an executable
    model of the session they drive (a table of rows, a unit of work that
    is flushed and installed by [commit], and a plan of driver faults).

    The entity type and the session are not part of the repository class.
    They are modelled as follows.
    - The entity type has a name and mapped columns, each of a type; [id] is
      its integer primary key.  A name that is no column is refused by the
      constructor and by [filter_by], and is a plain attribute of the object
      for [setattr].
    - The store keeps signed 64-bit integers: a larger integer bound to a
      statement makes the driver raise.  It generates the key of a row that
      is inserted without one as one more than the largest key in the table
      (1 in an empty table), and answers a query without [ORDER BY] in the
      order of the keys.  How it converts a value that does not fit the type
      of its column is not modelled; the statements speak of values that
      fit.
    - A session works on its own view of the table; [commit] installs that
      view as a whole or not at all, and leaving the [async with] block
      closes the session without raising.
    - The session factory and every awaited call of the session may raise a
      fault of the driver; which ones do is fixed by a plan in the world.
    - [DatabaseError] is the class of [sqlalchemy.exc], whose constructor
      takes a statement, its parameters and the original exception: called
      with a message alone it raises [TypeError], so the [raise ... from e]
      it stands in is never reached.
    - The calls of the logger are left out. *)

From stdpp Require Import base option list strings gmap sorting.
From Stdlib Require Import ZArith.

Local Open Scope Z_scope.

(** ** Data *)

(** Attribute values, as far as the repository looks at them: it compares
    them for equality and tests results against [None]. *)
Inductive value :=
  | VNone
  | VInt (n : Z)
  | VStr (s : string).

#[global] Instance value_eq_dec : EqDecision value.
Proof. solve_decision. Defined.

(** [True] and [False] are the integers 1 and 0, for Python's [==] as for
    the store. *)
Definition VBool (b : bool) : value := VInt (if b then 1 else 0).

(** The types of columns. *)
Inductive ctype := Integer | Text | Boolean.

(** The integers the store keeps. *)
Definition min_key : Z := - 2 ^ 63.
Definition max_key : Z := 2 ^ 63 - 1.

Definition in_range (n : Z) : bool := (min_key <=? n) && (n <=? max_key).

(** A value the driver can bind to a statement. *)
Definition bindable (v : value) : bool :=
  match v with
  | VInt n => in_range n
  | _ => true
  end.

(** A value of the type of its column; [None] is one of every type. *)
Definition fits (ty : ctype) (v : value) : bool :=
  match v, ty with
  | VNone, _ => true
  | VInt n, Integer => in_range n
  | VInt n, Boolean => (n =? 0) || (n =? 1)
  | VStr _, Text => true
  | _, _ => false
  end.

(** [**kwargs]: a dict, which keeps its insertion order. *)
Abbreviation kwargs := (list (string * value)).

(** [kwargs[k]]. *)
Fixpoint getitem (kw : kwargs) (k : string) : option value :=
  match kw with
  | [] => None
  | (k', v) :: kw' => if decide (k' = k) then Some v else getitem kw' k
  end.

(** A stored row: column name to value.  A column that was never written
    reads as NULL. *)
Definition col (r : gmap string value) (k : string) : value :=
  default VNone (r !! k).

(** The primary key of a row. *)
Definition ident (r : gmap string value) : option Z :=
  match r !! "id" with
  | Some (VInt n) => Some n
  | _ => None
  end.

(** The table of the repository's entity type, in the order the rows were
    inserted. *)
Abbreviation table := (list (gmap string value)).

Definition ids (t : table) : list Z := omap ident t.

(** The key the store generates for a row inserted without one: 1 in an
    empty table, else one more than the largest key.  Past the largest
    integer the store draws candidates at random; the model takes the draw
    to fail. *)
Definition next_id (t : table) : option Z :=
  match ids t with
  | [] => Some 1
  | n :: ns =>
      let m := foldr Z.max n ns + 1 in
      if in_range m then Some m else None
  end.

(** A row matches [filter_by] over the keyword arguments when every named
    column equals the given value. *)
Definition matches (kw : kwargs) (r : gmap string value) : bool :=
  forallb (λ kv, bool_decide (col r kv.1 = kv.2)) kw.

Definition has_id (n : Z) (r : gmap string value) : bool :=
  bool_decide (ident r = Some n).

(** The order in which the store answers: by key. *)
Definition by_key (r1 r2 : gmap string value) : Prop :=
  default 0 (ident r1) ≤ default 0 (ident r2).

#[global] Instance by_key_dec r1 r2 : Decision (by_key r1 r2).
Proof. unfold by_key. apply _. Defined.

(** The rows a [select] with [filter_by] answers. *)
Definition select (kw : kwargs) (t : table) : table :=
  merge_sort by_key (filter (λ r, matches kw r) t).

(** Modelled from the spec: the entity type descriptor handed to the
    repository, bound by [Base] of [src.database._models], which this
    fragment does not contain: a name, and the mapped columns other than
    [id] with their types. *)
Record Model := { __name__ : string; __table__ : gmap string ctype }.

Definition column_type (m : Model) (k : string) : option ctype :=
  if decide (k = "id") then Some Integer else __table__ m !! k.

Definition mapped (m : Model) (k : string) : bool :=
  bool_decide (is_Some (column_type m k)).

(** Keyword arguments that name columns, with values that fit them. *)
Definition typed (m : Model) (kw : kwargs) : bool :=
  forallb (λ kv, match column_type m kv.1 with
                 | Some ty => fits ty kv.2
                 | None => false
                 end) kw.

(** Modelled from the spec: an instance of the entity type, a persisted
    record with an identity field [id] and named, settable attributes.  As
    the caller holds it, it has the identity key it was loaded under ([None]
    for an object that was never persisted), the values of its columns, those
    values as last loaded from the store, and the plain attributes set on it
    under names that are no columns. *)
Record instance := Instance {
  key : option Z;
  attrs : gmap string value;
  loaded : gmap string value;
  extra : gmap string value
}.

#[global] Instance instance_eq_dec : EqDecision instance.
Proof. solve_decision. Defined.

(** An object as the session builds it from a row. *)
Definition load (r : gmap string value) : instance :=
  {| key := ident r; attrs := r; loaded := r; extra := ∅ |}.

(** [setattr(obj, key, value)]. *)
Definition setattr (m : Model) (o : instance) (k : string) (v : value)
  : instance :=
  if mapped m k
  then {| key := key o; attrs := <[k := v]> (attrs o); loaded := loaded o;
          extra := extra o |}
  else {| key := key o; attrs := attrs o; loaded := loaded o;
          extra := <[k := v]> (extra o) |}.

(** The columns of [o] whose value differs from the loaded one: what a
    flush writes for a persistent object. *)
Definition net_changes (o : instance) : gmap string value :=
  filter (λ kv, col (loaded o) kv.1 ≠ kv.2) (attrs o).

(** ** Errors *)

(** The lower-level exceptions, raised by the session, the driver or Python
    itself. *)
Inductive cause :=
  | KeyError (k : string)
  | InvalidKeyword (k : string)
  | MultipleResultsFound
  | IntegrityError
  | StaleDataError
  | InvalidRequestError
  | OverflowError
  | OperationalError
  | DriverError (code : nat).

(** What an operation can raise: a lower-level exception as it is, or the
    [TypeError] of the call [DatabaseError(msg)], raised while another
    exception was handled.  That exception is its [__context__]; its
    [__cause__] is not set. *)
Inductive exn :=
  | Low (c : cause)
  | TypeError (context : exn).

#[global] Instance cause_eq_dec : EqDecision cause.
Proof. solve_decision. Defined.

#[global] Instance exn_eq_dec : EqDecision exn.
Proof. solve_decision. Defined.

(** The exception at the end of the [__context__] chain. *)
Fixpoint root (e : exn) : cause :=
  match e with
  | Low c => c
  | TypeError e' => root e'
  end.

(** The number of [TypeError] links above the root. *)
Fixpoint depth (e : exn) : nat :=
  match e with
  | Low _ => O
  | TypeError e' => S (depth e')
  end.

Inductive outcome (A : Type) :=
  | Return (a : A)
  | Raise (e : exn).
Arguments Return {A} a.
Arguments Raise {A} e.

(** ** The session and the store *)

(** The unit of work of one session: its view of the table inside the open
    transaction, the objects added to it (an object is named by its position
    here, which stands for the Python reference), and the keys marked for
    deletion. *)
Record session := Session {
  work : table;
  objs : list instance;
  dels : list Z
}.

Definition closed : session := {| work := []; objs := []; dels := [] |}.

(** The world an operation runs in: the committed table, the faults the
    driver will raise (one entry per awaited call and per call of the session
    factory; an exhausted plan raises nothing), the session that is open, and
    the lower-level exceptions raised so far, most recent first. *)
Record world := World {
  db : table;
  faults : list (option cause);
  sess : session;
  raised : list cause
}.

Definition M (A : Type) : Type := world → outcome A * world.

#[global] Instance M_ret : MRet M := λ A a w, (Return a, w).

#[global] Instance M_bind : MBind M := λ A B f m w,
  match m w with
  | (Return a, w') => f a w'
  | (Raise e, w') => (Raise e, w')
  end.

(** [raise] of a lower-level exception. *)
Definition throw {A} (c : cause) : M A := λ w,
  (Raise (Low c),
   {| db := db w; faults := faults w; sess := sess w; raised := c :: raised w |}).

Definition get_session : M session := λ w, (Return (sess w), w).

Definition put_session (s : session) : M unit := λ w,
  (Return tt, {| db := db w; faults := faults w; sess := s; raised := raised w |}).

(** One contact with the driver: it raises the fault planned for it. *)
Definition touch : M unit := λ w,
  match faults w with
  | [] => (Return tt, w)
  | f :: fs =>
      let w' := {| db := db w; faults := fs; sess := sess w; raised := raised w |} in
      match f with
      | None => (Return tt, w')
      | Some c => throw c w'
      end
  end.

(** The driver binds the values of a statement: an integer the store cannot
    keep makes it raise. *)
Definition bind_values (vs : list value) : M unit :=
  if forallb bindable vs then mret tt else throw OverflowError.

(** A fresh, not yet persisted object with the given columns. *)
Definition transient (kw : kwargs) : instance :=
  {| key := None; attrs := list_to_map kw; loaded := ∅; extra := ∅ |}.

(** [self.model] called on the keyword arguments; a keyword that is no
    column is refused. *)
Definition construct (m : Model) (kw : kwargs) : M instance :=
  match filter (λ kv, ¬ mapped m kv.1) kw with
  | [] => mret (transient kw)
  | (k, _) :: _ => throw (InvalidKeyword k)
  end.

(** [select(self.model).filter_by] over the keyword arguments: the query; a
    keyword that is no column is refused. *)
Definition filter_by (m : Model) (kw : kwargs) : M kwargs :=
  match filter (λ kv, ¬ mapped m kv.1) kw with
  | [] => mret kw
  | _ :: _ => throw InvalidRequestError
  end.

(** *** Flushing the unit of work *)

(** The statement a flush emits for one object.  An object without identity
    key is inserted, under the key it carries or else under a generated one;
    a key that is taken, or that is no integer, violates the primary key.  A
    persistent object is updated with its net changes where its key is found;
    no statement is emitted when there are none, and a statement that matches
    no row is stale.  The values of the statement are bound first. *)
Definition flush_object (t : table) (o : instance) : cause + table * instance :=
  match key o with
  | None =>
      if negb (forallb bindable (map_to_list (attrs o)).*2) then inl OverflowError
      else
        match attrs o !! "id" with
        | None | Some VNone =>
            match next_id t with
            | Some n =>
                let r := <["id" := VInt n]> (attrs o) in
                inr (t ++ [r],
                     {| key := Some n; attrs := r; loaded := r;
                        extra := extra o |})
            | None => inl OperationalError
            end
        | Some (VInt n) =>
            if decide (n ∈ ids t) then inl IntegrityError
            else inr (t ++ [attrs o],
                      {| key := Some n; attrs := attrs o; loaded := attrs o;
                         extra := extra o |})
        | Some _ => inl IntegrityError
        end
  | Some k =>
      let ch := net_changes o in
      if decide (ch = ∅) then inr (t, o)
      else if negb (forallb bindable (map_to_list ch).*2) then inl OverflowError
      else if existsb (has_id k) t then
        let t' := (λ r, if has_id k r then ch ∪ r else r) <$> t in
        let o' k' := {| key := Some k'; attrs := attrs o; loaded := attrs o;
                        extra := extra o |} in
        match ch !! "id" with
        | None => inr (t', o' k)
        | Some (VInt m) =>
            if decide (m ≠ k ∧ m ∈ ids t) then inl IntegrityError
            else inr (t', o' m)
        | Some _ => inl IntegrityError
        end
      else inl StaleDataError
  end.

Fixpoint flush_objects (t : table) (os : list instance)
  : cause + table * list instance :=
  match os with
  | [] => inr (t, [])
  | o :: os' =>
      match flush_object t o with
      | inl c => inl c
      | inr (t', o') =>
          match flush_objects t' os' with
          | inl c => inl c
          | inr (t'', os'') => inr (t'', o' :: os'')
          end
      end
  end.

(** The rows left when the keys [ks] are deleted; a key that matches no row
    deletes nothing. *)
Definition delete_rows (ks : list Z) (t : table) : table :=
  filter (λ r, ¬ existsb (λ k, has_id k r) ks) t.

(** The whole unit of work: inserts and updates first, deletes last. *)
Definition flush (s : session) : cause + session :=
  match flush_objects (work s) (objs s) with
  | inl c => inl c
  | inr (t, os) =>
      inr {| work := delete_rows (dels s) t; objs := os; dels := [] |}
  end.

(** *** The calls the repository makes on its session *)

(** [self._session_factory()] and entering the block: a new session on the
    committed table. *)
Definition session_factory : M unit :=
  touch ;;
  ((λ w, (Return tt,
          {| db := db w; faults := faults w;
             sess := {| work := db w; objs := []; dels := [] |};
             raised := raised w |})) : M unit).

(** Leaving the block: the session is closed and what it did not commit is
    gone. *)
Definition close (w : world) : world :=
  {| db := db w; faults := faults w; sess := closed; raised := raised w |}.

(** [async with self._session_factory() as session: body]. *)
Definition with_session {A} (body : M A) : M A := λ w,
  match session_factory w with
  | (Raise e, w1) => (Raise e, w1)
  | (Return _, w1) => let '(r, w2) := body w1 in (r, close w2)
  end.

(** [session.add(obj)]; the result names the object inside the session. *)
Definition session_add (o : instance) : M nat :=
  s ← get_session;
  put_session {| work := work s; objs := objs s ++ [o]; dels := dels s |} ;;
  mret (length (objs s)).

(** [await session.commit()]: the unit of work is flushed and the table it
    yields replaces the committed one, or an exception is raised and the
    committed table stays as it was. *)
Definition commit : M unit :=
  touch ;;
  s ← get_session;
  match flush s with
  | inl c => throw c
  | inr s' =>
      (λ w, (Return tt,
             {| db := work s'; faults := faults w; sess := s';
                raised := raised w |})) : M unit
  end.

(** [await session.refresh(obj)]: the columns of the object are read again
    under its key; its plain attributes stay. *)
Definition refresh (h : nat) : M instance :=
  s ← get_session;
  match objs s !! h with
  | Some {| key := Some k; extra := x |} =>
      touch ;;
      match filter (λ r, has_id k r) (work s) with
      | r :: _ =>
          mret {| key := ident r; attrs := r; loaded := r; extra := x |}
      | [] => throw InvalidRequestError
      end
  | _ => throw InvalidRequestError
  end.

(** [await session.delete(obj)]: refused for an object that was never
    persisted. *)
Definition session_delete (o : instance) : M unit :=
  match key o with
  | None => throw InvalidRequestError
  | Some k =>
      touch ;;
      s ← get_session;
      put_session {| work := work s; objs := objs s; dels := dels s ++ [k] |}
  end.

(** [await session.execute(query)] for a [select] with [filter_by], with the
    objects of the result. *)
Definition execute_select (kw : kwargs) : M (list instance) :=
  touch ;;
  bind_values kw.*2 ;;
  s ← get_session;
  mret (load <$> select kw (work s)).

(** [await session.execute(select(exists().where(self.model.id == v)))]: the
    result has one row, whose one column is the truth value. *)
Definition execute_exists (v : value) : M (list value) :=
  touch ;;
  bind_values [v] ;;
  s ← get_session;
  mret [VBool (existsb (λ r, bool_decide (col r "id" = v)) (work s))].

(** [await session.execute(delete(self.model))]. *)
Definition execute_delete_all : M unit :=
  touch ;;
  s ← get_session;
  put_session {| work := []; objs := objs s; dels := dels s |}.

(** [result.scalar_one_or_none()]. *)
Definition scalar_one_or_none {A} (rs : list A) : M (option A) :=
  match rs with
  | [] => mret None
  | [x] => mret (Some x)
  | _ => throw MultipleResultsFound
  end.

(** [x is not None], for a scalar that may itself be NULL. *)
Definition is_not_None (x : option value) : bool :=
  match x with
  | None | Some VNone => false
  | Some _ => true
  end.

(** ** The repository *)

Record BaseRepository := { model : Model }.

(** [try: body / except Exception as e: raise DatabaseError(msg) from e].
    The call [DatabaseError(msg)] passes the message as the statement and
    lacks the parameters and the original exception, so it raises
    [TypeError] inside the handler, with [e] as its context; the message is
    lost with it. *)
Definition try_except {A} (msg : string) (body : M A) : M A := λ w,
  match body w with
  | (Return a, w') => (Return a, w')
  | (Raise e, w') => (Raise (TypeError e), w')
  end.

Definition _create (self : BaseRepository) (kw : kwargs) : M instance :=
  try_except ("Не удалось создать " +:+ __name__ (model self))
    (with_session (
       obj ← construct (model self) kw;
       h ← session_add obj;
       commit ;;
       obj ← refresh h;
       mret obj)).

Definition _get (self : BaseRepository) (kw : kwargs) : M (option instance) :=
  try_except ("Не удалось получить " +:+ __name__ (model self))
    (with_session (
       query ← filter_by (model self) kw;
       result ← execute_select query;
       scalar_one_or_none result)).

Definition _create_if_not_exists (self : BaseRepository) (kw : kwargs)
  : M (instance * bool) :=
  try_except ("Не удалось создать объект " +:+ __name__ (model self))
    (obj ← _get self kw;
     match obj with
     | Some obj => mret (obj, false)
     | None => obj ← _create self kw; mret (obj, true)
     end).

Definition _get_all (self : BaseRepository) (kw : kwargs) : M (list instance) :=
  try_except ("Не удалось получить все объекты " +:+ __name__ (model self))
    (with_session (
       query ← filter_by (model self) kw;
       result ← execute_select query;
       mret result)).

(** The body of the loop ends in [return obj], so the first item of the dict
    is the only one visited; with no item the block is left and the function
    returns [None]. *)
Definition _update (self : BaseRepository) (obj : instance) (kw : kwargs)
  : M (option instance) :=
  try_except ("Не удалось обновить объект " +:+ __name__ (model self))
    (with_session (
       match kw with
       | (key, value) :: _ =>
           let obj := setattr (model self) obj key value in
           h ← session_add obj;
           commit ;;
           obj ← refresh h;
           mret (Some obj)
       | [] => mret None
       end)).

Definition _delete (self : BaseRepository) (obj : instance) : M unit :=
  try_except ("Не удалось удалить объект " +:+ __name__ (model self))
    (with_session (
       session_delete obj ;;
       commit)).

Definition _exists (self : BaseRepository) (kw : kwargs) : M bool :=
  try_except
    ("Не удалось проверить существование объекта " +:+ __name__ (model self))
    (with_session (
       match getitem kw "id" with
       | None => throw (KeyError "id")
       | Some v =>
           result ← execute_exists v;
           x ← scalar_one_or_none result;
           mret (is_not_None x)
       end)).

Definition _filter (self : BaseRepository) (kw : kwargs) : M (list instance) :=
  try_except ("Не удалось отфильтровать объекты " +:+ __name__ (model self))
    (with_session (
       query ← filter_by (model self) kw;
       result ← execute_select query;
       mret result)).

Definition _delete_all (self : BaseRepository) : M unit :=
  try_except ("Не удалось удалить все объекты " +:+ __name__ (model self))
    (with_session (
       execute_delete_all ;;
       commit)).

(** ** Notions the statements use *)

(** An action is [faithful] when it reports exactly the failure that
    happened: it returns without any lower-level exception having been raised,
    or it raises an exception whose chain of contexts ends in the one
    lower-level exception raised while it ran. *)
Definition faithful {A} (m : M A) : Prop :=
  ∀ w,
    match m w with
    | (Return _, w') => raised w' = raised w
    | (Raise e, w') => raised w' = root e :: raised w
    end.

(** [deep n m]: what [m] raises lies [n] links of [TypeError] above its
    lower-level exception. *)
Definition deep {A} (n : nat) (m : M A) : Prop :=
  ∀ w e w', m w = (Raise e, w') → depth e = n.

(** An operation [misreports] its failures when it is faithful and whatever
    it raises is a [TypeError], [n] links above the lower-level exception. *)
Definition misreports {A} (n : nat) (op : M A) : Prop :=
  ∀ w,
    match op w with
    | (Return _, w') => raised w' = raised w
    | (Raise e, w') =>
        raised w' = root e :: raised w ∧
        depth e = n ∧
        ∃ e', e = TypeError e'
    end.

(** The change an update asks for, in the words of the spec: each field value
    applied to the entity. *)
Definition apply_fields (kw : kwargs) (r : gmap string value)
  : gmap string value :=
  foldl (λ r kv, <[kv.1 := kv.2]> r) r kw.

(** A row can be inserted for the keyword arguments: the key they name is an
    integer no row has, or they name none and the store can generate one. *)
Definition id_available (kw : kwargs) (t : table) : Prop :=
  match getitem kw "id" with
  | None => is_Some (next_id t)
  | Some (VInt n) => n ∉ ids t
  | Some _ => False
  end.

(** Two runs agree: the same world, and the same value returned or the same
    exception raised. *)
Definition agree {A} (x y : outcome A * world) : Prop :=
  x.2 = y.2 ∧
  match x.1, y.1 with
  | Return a, Return b => a = b
  | Raise e1, Raise e2 => e1 = e2
  | _, _ => False
  end.

(** A table is [keyed] when every row has an integer [id] and no two rows
    have the same. *)
Definition keyed (t : table) : Prop :=
  Forall (λ r, is_Some (ident r)) t ∧ NoDup (ids t).

(** The world inside an [async with] block that has just been entered: a
    session on the committed table [t], with nothing added yet. *)
Definition opened (t : table) (fs : list (option cause)) (l : list cause)
  : world :=
  {| db := t; faults := fs; sess := {| work := t; objs := []; dels := [] |};
     raised := l |}.

(** ** A store to run on *)

(** Users have a name and a flag. *)
Definition User : BaseRepository :=
  {| model := {| __name__ := "User";
                 __table__ := {[ "name" := Text; "flag" := Boolean ]} |} |}.

(** An empty table, a driver that never fails. *)
Definition fresh : world :=
  {| db := []; faults := []; sess := closed; raised := [] |}.

(** A user as stored, and the table that holds only that row. *)
Definition user_a : gmap string value :=
  {[ "id" := VInt 1; "name" := VStr "a"; "flag" := VBool false ]}.

Definition one_user : world :=
  {| db := [user_a]; faults := []; sess := closed; raised := [] |}.

(** Two rows of the same name. *)
Definition two_users : world :=
  {| db := [user_a; <["id" := VInt 2]> user_a]; faults := []; sess := closed;
     raised := [] |}.

(** The table of [one_user] after a second user was stored. *)
Definition user_b : gmap string value :=
  {[ "id" := VInt 2; "name" := VStr "b"; "flag" := VBool true ]}.

Definition users_ab : world :=
  {| db := [user_a; user_b]; faults := []; sess := closed; raised := [] |}.

(** * Proofs *)

(** ** How failures surface *)

Section faithful.
Context {A B : Type}.

Lemma faithful_ret (a : A) : faithful (mret a).
Proof. by intros w. Qed.

Lemma faithful_throw (c : cause) : faithful (throw c : M A).
Proof. by intros w. Qed.

Lemma faithful_bind (m : M A) (f : A → M B) :
  faithful m → (∀ a, faithful (f a)) → faithful (m ≫= f).
Proof.
  intros Hm Hf w. unfold mbind, M_bind. specialize (Hm w).
  destruct (m w) as [[a|e] w1]; [|done].
  specialize (Hf a w1). destruct (f a w1) as [[b|e] w2]; congruence.
Qed.

Lemma faithful_try_except msg (m : M A) :
  faithful m → faithful (try_except msg m).
Proof.
  intros Hm w. unfold try_except. specialize (Hm w).
  by destruct (m w) as [[a|e] w1].
Qed.
End faithful.

Lemma faithful_touch : faithful touch.
Proof. intros [t [|[c|] fs] s l]; done. Qed.

Lemma faithful_get_session : faithful get_session.
Proof. by intros w. Qed.

Lemma faithful_put_session s : faithful (put_session s).
Proof. by intros w. Qed.

Lemma faithful_session_factory : faithful session_factory.
Proof. apply faithful_bind; [apply faithful_touch|]. by intros _ w. Qed.

Lemma faithful_with_session {A} (body : M A) :
  faithful body → faithful (with_session body).
Proof.
  intros Hb w. unfold with_session.
  pose proof (faithful_session_factory w) as Hs.
  destruct (session_factory w) as [[[]|e] w1]; [|done].
  specialize (Hb w1). destruct (body w1) as [[a|e] w2]; simpl; congruence.
Qed.

Create HintDb faithful.

#[local] Hint Resolve faithful_ret faithful_throw faithful_touch
  faithful_get_session faithful_put_session faithful_session_factory
  : faithful.
#[local] Hint Extern 1 (faithful (_ ≫= _)) =>
  apply faithful_bind; [|intros ?] : faithful.
#[local] Hint Extern 1 (faithful (with_session _)) =>
  apply faithful_with_session : faithful.
#[local] Hint Extern 1 (faithful (try_except _ _)) =>
  apply faithful_try_except : faithful.
#[local] Hint Extern 2 (faithful (match ?x with _ => _ end)) =>
  destruct x : faithful.
#[local] Hint Extern 2 (faithful (if ?x then _ else _)) =>
  destruct x : faithful.

Lemma faithful_session_add o : faithful (session_add o).
Proof. unfold session_add. auto with faithful. Qed.

Lemma faithful_bind_values vs : faithful (bind_values vs).
Proof. unfold bind_values. auto with faithful. Qed.

Lemma faithful_construct m kw : faithful (construct m kw).
Proof. unfold construct. destruct (filter _ kw) as [|[k v] ?]; auto with faithful. Qed.

Lemma faithful_filter_by m kw : faithful (filter_by m kw).
Proof. unfold filter_by. destruct (filter _ kw); auto with faithful. Qed.

Lemma faithful_commit : faithful commit.
Proof.
  unfold commit. apply faithful_bind; [auto with faithful|intros _].
  apply faithful_bind; [auto with faithful|intros s].
  destruct (flush s); [apply faithful_throw|by intros w].
Qed.

Lemma faithful_refresh h : faithful (refresh h).
Proof.
  unfold refresh. apply faithful_bind; [auto with faithful|intros s].
  destruct (objs s !! h) as [[[k|] ? ? ?]|]; auto with faithful.
Qed.

Lemma faithful_session_delete o : faithful (session_delete o).
Proof. unfold session_delete. destruct (key o); auto with faithful. Qed.

#[local] Hint Resolve faithful_bind_values faithful_construct
  faithful_filter_by : faithful.

Lemma faithful_execute_select kw : faithful (execute_select kw).
Proof. unfold execute_select. auto with faithful. Qed.

Lemma faithful_execute_exists v : faithful (execute_exists v).
Proof. unfold execute_exists. auto with faithful. Qed.

Lemma faithful_execute_delete_all : faithful execute_delete_all.
Proof. unfold execute_delete_all. auto with faithful. Qed.

Lemma faithful_scalar_one_or_none {A} (rs : list A) :
  faithful (scalar_one_or_none rs).
Proof. destruct rs as [|? [|? ?]]; simpl; auto with faithful. Qed.

#[local] Hint Resolve faithful_session_add faithful_commit faithful_refresh
  faithful_session_delete faithful_execute_select faithful_execute_exists
  faithful_execute_delete_all faithful_scalar_one_or_none : faithful.

Lemma deep_ret {A} n (a : A) : deep n (mret a).
Proof. by intros w e w'. Qed.

Lemma deep_throw {A} c : deep 0 (throw c : M A).
Proof. intros w e w'. unfold throw. by intros [= <- _]. Qed.

Lemma deep_bind {A B} n (m : M A) (f : A → M B) :
  deep n m → (∀ a, deep n (f a)) → deep n (m ≫= f).
Proof.
  intros Hm Hf w e w'. unfold mbind, M_bind. specialize (Hm w).
  destruct (m w) as [[a|e1] w1].
  - apply Hf.
  - intros [= <- _]. by eapply Hm.
Qed.

Lemma deep_touch : deep 0 touch.
Proof.
  intros [t [|[c|] fs] s l] e w'; unfold touch, throw; simpl; by intros [= <- _].
Qed.

Lemma deep_get_session : deep 0 get_session.
Proof. by intros w e w'. Qed.

Lemma deep_put_session s : deep 0 (put_session s).
Proof. by intros w e w'. Qed.

Lemma deep_with_session {A} (body : M A) :
  deep 0 body → deep 0 (with_session body).
Proof.
  intros Hb w e w'. unfold with_session.
  destruct (session_factory w) as [[[]|e1] w1] eqn:Hs.
  - specialize (Hb w1). destruct (body w1) as [[a|e2] w2]; [done|].
    intros [= <- _]. by eapply Hb.
  - intros [= <- _]. revert Hs. unfold session_factory.
    apply deep_bind; [apply deep_touch|]. by intros _ w2 e2 w2'.
Qed.

Lemma deep_try_except {A} n msg (m : M A) :
  deep n m → deep (S n) (try_except msg m).
Proof.
  intros Hm w e w'. unfold try_except. specialize (Hm w).
  destruct (m w) as [[a|e1] w1]; [done|].
  intros [= <- _]. simpl. f_equal. by eapply Hm.
Qed.

Create HintDb deep.

#[local] Hint Resolve deep_ret deep_throw deep_touch deep_get_session
  deep_put_session : deep.
#[local] Hint Extern 1 (deep _ (_ ≫= _)) =>
  apply deep_bind; [|intros ?] : deep.
#[local] Hint Extern 1 (deep _ (with_session _)) =>
  apply deep_with_session : deep.
#[local] Hint Extern 1 (deep _ (try_except _ _)) =>
  apply deep_try_except : deep.
#[local] Hint Extern 2 (deep _ (match ?x with _ => _ end)) =>
  destruct x : deep.
#[local] Hint Extern 2 (deep _ (if ?x then _ else _)) =>
  destruct x : deep.

Lemma deep_commit : deep 0 commit.
Proof.
  unfold commit. apply deep_bind; [auto with deep|intros _].
  apply deep_bind; [auto with deep|intros s].
  destruct (flush s); [apply deep_throw|by intros w e w'].
Qed.

Lemma deep_refresh h : deep 0 (refresh h).
Proof.
  unfold refresh. apply deep_bind; [auto with deep|intros s].
  destruct (objs s !! h) as [[[k|] ? ? ?]|]; auto with deep.
Qed.

Lemma deep_scalar_one_or_none {A} (rs : list A) :
  deep 0 (scalar_one_or_none rs).
Proof. destruct rs as [|? [|? ?]]; simpl; auto with deep. Qed.

Lemma deep_construct m kw : deep 0 (construct m kw).
Proof. unfold construct. destruct (filter _ kw) as [|[k v] ?]; auto with deep. Qed.

Lemma deep_filter_by m kw : deep 0 (filter_by m kw).
Proof. unfold filter_by. destruct (filter _ kw); auto with deep. Qed.

#[local] Hint Resolve deep_commit deep_refresh deep_scalar_one_or_none
  deep_construct deep_filter_by : deep.

Lemma misreports_try_except {A} n msg (m : M A) :
  faithful m → deep n m → misreports (S n) (try_except msg m).
Proof.
  intros Hm Hd w. unfold try_except. specialize (Hm w). specialize (Hd w).
  destruct (m w) as [[a|e] w1]; [done|].
  split; [done|]. split; [|by eexists].
  simpl. f_equal. by eapply Hd.
Qed.

Lemma faithful_misreports {A} n (op : M A) : misreports n op → faithful op.
Proof.
  intros H w. specialize (H w). destruct (op w) as [[a|e] w']; [done|].
  by destruct H.
Qed.

Lemma deep_misreports {A} n (op : M A) : misreports n op → deep n op.
Proof.
  intros H w e w' Hw. specialize (H w). rewrite Hw in H. by destruct H as (_&?&_).
Qed.

(** Both facts, for an operation written as [try_except] over the calls
    above. *)
Ltac misreport :=
  apply misreports_try_except; cbv zeta;
  unfold session_add, session_delete, execute_select, execute_exists,
    execute_delete_all, bind_values;
  [auto 14 with faithful | auto 14 with deep].

Section misreported.
Variable self : BaseRepository.

Lemma misreports_create kw : misreports 1 (_create self kw).
Proof. misreport. Qed.

Lemma misreports_get kw : misreports 1 (_get self kw).
Proof. misreport. Qed.

(** X15. Whatever lower-level exception is raised while an operation runs,
    what the operation raises is the [TypeError] of the call
    [DatabaseError(msg)], with that exception at the end of its chain of
    contexts; it returns only when no exception was raised.  Eight
    operations raise it one link above the exception,
    [_create_if_not_exists] two. *)
Theorem failures_are_type_errors (kw : kwargs) (obj : instance) :
  misreports 1 (_create self kw) ∧
  misreports 1 (_get self kw) ∧
  misreports 2 (_create_if_not_exists self kw) ∧
  misreports 1 (_get_all self kw) ∧
  misreports 1 (_update self obj kw) ∧
  misreports 1 (_delete self obj) ∧
  misreports 1 (_exists self kw) ∧
  misreports 1 (_filter self kw) ∧
  misreports 1 (_delete_all self).
Proof.
  repeat split.
  - apply misreports_create.
  - apply misreports_get.
  - apply misreports_try_except.
    + apply faithful_bind.
      * eapply faithful_misreports, misreports_get.
      * intros [o|]; [apply faithful_ret|].
        apply faithful_bind; [|intros ?; apply faithful_ret].
        eapply faithful_misreports, misreports_create.
    + apply deep_bind.
      * eapply deep_misreports, misreports_get.
      * intros [o|]; [apply deep_ret|].
        apply deep_bind; [|intros ?; apply deep_ret].
        eapply deep_misreports, misreports_create.
  - misreport.
  - misreport.
  - misreport.
  - misreport.
  - misreport.
  - misreport.
Qed.
End misreported.

(** ** Running the operations *)

(** Symbolic execution: the operations and the session calls are unfolded
    down to the tables they compute. *)
Ltac exec :=
  cbv beta iota zeta delta
    [_create _get _create_if_not_exists _get_all _update _delete _exists
     _filter _delete_all try_except with_session session_factory close
     session_add commit refresh session_delete execute_select execute_exists
     execute_delete_all scalar_one_or_none touch throw get_session put_session
     bind_values construct filter_by
     mbind M_bind mret M_ret db faults sess raised work objs dels];
  cbn [fst snd].

(** *** Facts about keyword arguments and rows *)

Lemma getitem_list_to_map (kw : kwargs) (k : string) :
  (list_to_map kw : gmap string value) !! k = getitem kw k.
Proof.
  induction kw as [|[k' v] kw IH]; simpl; [done|].
  case_decide; subst; by simplify_map_eq.
Qed.

Lemma getitem_None (kw : kwargs) (k : string) :
  getitem kw k = None → k ∉ kw.*1.
Proof.
  rewrite <-getitem_list_to_map. intros H%not_elem_of_list_to_map_2. done.
Qed.

Lemma getitem_elem (kw : kwargs) (k : string) (v : value) :
  getitem kw k = Some v → (k, v) ∈ kw.
Proof.
  induction kw as [|[k' v'] kw IH]; simpl; [done|].
  case_decide; subst.
  - intros [= ->]. left.
  - intros ?%IH. by right.
Qed.

Lemma matches_spec (kw : kwargs) (r : gmap string value) :
  matches kw r ↔ ∀ k v, (k, v) ∈ kw → col r k = v.
Proof.
  unfold matches. rewrite Is_true_true, forallb_forall. split.
  - intros H k v Hin. apply list_elem_of_In, H in Hin.
    by apply bool_decide_eq_true in Hin.
  - intros H [k v] Hin. apply bool_decide_eq_true, H. by apply list_elem_of_In.
Qed.

Lemma matches_list_to_map (kw : kwargs) :
  NoDup kw.*1 → matches kw (list_to_map kw).
Proof.
  intros Hnd. apply matches_spec. intros k v Hin. unfold col.
  by rewrite (elem_of_list_to_map_1 kw k v).
Qed.

Lemma matches_insert_id (kw : kwargs) (v : value) :
  NoDup kw.*1 → getitem kw "id" = None →
  matches kw (<["id" := v]> (list_to_map kw)).
Proof.
  intros Hnd Hid%getitem_None. apply matches_spec. intros k x Hin. unfold col.
  rewrite lookup_insert_ne.
  - by rewrite (elem_of_list_to_map_1 kw k x).
  - intros <-. apply Hid. apply list_elem_of_fmap. by exists ("id", x).
Qed.

Lemma matches_id (n : Z) (r : gmap string value) :
  matches [("id", VInt n)] r ↔ has_id n r.
Proof.
  unfold matches, has_id, col, ident. simpl. rewrite andb_true_r.
  rewrite !bool_decide_spec.
  destruct (r !! "id") as [[|m|]|]; simpl; split; congruence.
Qed.

Lemma fits_bindable (ty : ctype) (v : value) : fits ty v → bindable v.
Proof.
  destruct v as [|n|s], ty; simpl; try done.
  intros [H|H]%orb_True; apply Is_true_true, Z.eqb_eq in H; by subst.
Qed.

Lemma typed_spec (m : Model) (kw : kwargs) :
  typed m kw ↔
  ∀ k v, (k, v) ∈ kw → ∃ ty, column_type m k = Some ty ∧ fits ty v.
Proof.
  unfold typed. rewrite Is_true_true, forallb_forall. split.
  - intros H k v Hin%list_elem_of_In. specialize (H _ Hin). simpl in H.
    destruct (column_type m k) as [ty|]; [|done]. exists ty.
    split; [done|]. by apply Is_true_true.
  - intros H [k v] Hin%list_elem_of_In. simpl.
    destruct (H k v Hin) as (ty & -> & Hf). by apply Is_true_true.
Qed.

Lemma typed_mapped (m : Model) (kw : kwargs) :
  typed m kw → filter (λ kv, ¬ mapped m kv.1) kw = [].
Proof.
  intros Ht. induction kw as [|[k v] kw IH]; [done|].
  simpl in Ht. apply andb_True in Ht as [Hk Ht].
  rewrite filter_cons, decide_False, IH; [done..|].
  intros Hn. apply Hn. unfold mapped. apply bool_decide_pack. simpl.
  by destruct (column_type m k).
Qed.

Lemma typed_bindable (m : Model) (kw : kwargs) :
  typed m kw → forallb bindable kw.*2 = true.
Proof.
  intros Ht. apply forallb_forall. intros v Hv%list_elem_of_In.
  apply list_elem_of_fmap in Hv as ([k v'] & -> & Hin). simpl.
  destruct (proj1 (typed_spec m kw) Ht k v' Hin) as (ty & _ & Hf).
  apply Is_true_true. by eapply fits_bindable.
Qed.

Lemma typed_map_bindable (m : Model) (kw : kwargs) :
  typed m kw →
  forallb bindable (map_to_list (list_to_map kw : gmap string value)).*2 = true.
Proof.
  intros Ht. apply forallb_forall. intros v Hv%list_elem_of_In.
  apply list_elem_of_fmap in Hv as ([k v'] & -> & Hin). simpl.
  apply elem_of_map_to_list, elem_of_list_to_map_2 in Hin.
  destruct (proj1 (typed_spec m kw) Ht k v' Hin) as (ty & _ & Hf).
  apply Is_true_true. by eapply fits_bindable.
Qed.

(** *** Facts about what the store answers *)

Lemma select_perm (kw : kwargs) (t : table) :
  select kw t ≡ₚ filter (λ r, matches kw r) t.
Proof. apply merge_sort_Permutation. Qed.

Lemma select_nil (kw : kwargs) (t : table) :
  filter (λ r, matches kw r) t = [] → select kw t = [].
Proof.
  intros H. apply Permutation_nil_r. by rewrite select_perm, H.
Qed.

Lemma select_one (kw : kwargs) (t : table) (r : gmap string value) :
  filter (λ r, matches kw r) t = [r] → select kw t = [r].
Proof.
  intros H. apply Permutation_singleton_r. by rewrite select_perm, H.
Qed.

Lemma select_length (kw : kwargs) (t : table) :
  length (select kw t) = length (filter (λ r, matches kw r) t).
Proof. by rewrite select_perm. Qed.

Lemma select_all (t : table) : select [] t ≡ₚ t.
Proof.
  rewrite select_perm. induction t as [|r t IH]; [done|].
  rewrite filter_cons_True by done. by f_equiv.
Qed.

(** *** Facts about tables *)

Lemma max_bound (n0 : Z) (ns : list Z) (x : Z) :
  x ∈ n0 :: ns → x ≤ foldr Z.max n0 ns.
Proof.
  induction ns as [|a ns IH]; simpl.
  - intros Hx%list_elem_of_singleton. lia.
  - intros [Hx|[Hx|Hx]%elem_of_cons]%elem_of_cons.
    + assert (x ≤ foldr Z.max n0 ns) by (apply IH; subst; left). lia.
    + lia.
    + assert (x ≤ foldr Z.max n0 ns) by (apply IH; by right). lia.
Qed.

Lemma next_id_fresh (t : table) (n : Z) :
  next_id t = Some n → (n ∉ ids t) ∧ in_range n.
Proof.
  unfold next_id. destruct (ids t) as [|n0 ns] eqn:Hids.
  - intros [= <-]. split; [by intros ?%elem_of_nil|done].
  - destruct (in_range _) eqn:Hr; [|done]. intros [= <-].
    split; [|by apply Is_true_true]. intros Hin%max_bound. lia.
Qed.

Lemma filter_none {A} (P : A → Prop) `{!∀ x, Decision (P x)} (l : list A) :
  (∀ x, x ∈ l → ¬ P x) → filter P l = [].
Proof.
  induction l as [|x l IH]; [done|]. intros Hall.
  rewrite filter_cons_False by (apply Hall; left).
  apply IH. intros y Hy. apply Hall. by right.
Qed.

Lemma filter_all {A} (P : A → Prop) `{!∀ x, Decision (P x)} (l : list A) :
  (∀ x, x ∈ l → P x) → filter P l = l.
Proof.
  induction l as [|x l IH]; [done|]. intros Hall.
  rewrite filter_cons_True by (apply Hall; left).
  f_equal. apply IH. intros y Hy. apply Hall. by right.
Qed.

Lemma has_id_ids (t : table) (n : Z) :
  n ∉ ids t → filter (λ r, has_id n r) t = [].
Proof.
  intros Hn. apply filter_none. intros r Hr Hid. apply Hn.
  unfold has_id in Hid. apply bool_decide_unpack in Hid.
  apply list_elem_of_omap. by exists r.
Qed.

Lemma has_id_self (r : gmap string value) (n : Z) :
  ident r = Some n → filter (λ r, has_id n r) [r] = [r].
Proof.
  intros Hr. apply filter_all. intros ? ->%list_elem_of_singleton.
  unfold has_id. by rewrite bool_decide_true.
Qed.

Lemma has_id_existsb (t : table) (k : Z) :
  k ∉ ids t → existsb (has_id k) t = false.
Proof.
  intros Hk. apply not_true_is_false. intros (r & Hr & Hid)%existsb_exists.
  apply Hk, list_elem_of_omap. exists r. split; [by apply list_elem_of_In|].
  by apply bool_decide_eq_true in Hid.
Qed.

Lemma delete_rows_nil (t : table) : delete_rows [] t = t.
Proof. unfold delete_rows. apply filter_all. by intros r _ []. Qed.

Lemma filter_delete_rows (P : gmap string value → Prop)
    `{!∀ r, Decision (P r)} (ks : list Z) (t : table) :
  filter P (delete_rows ks t) = delete_rows ks (filter P t).
Proof.
  unfold delete_rows. rewrite !list_filter_filter.
  apply list_filter_iff. intros r. tauto.
Qed.

Lemma delete_rows_one (k : Z) (r : gmap string value) :
  ident r = Some k → delete_rows [k] [r] = [].
Proof.
  intros Hk. unfold delete_rows. apply filter_none.
  intros ? ->%list_elem_of_singleton Hr. apply Hr. simpl. unfold has_id.
  by rewrite bool_decide_true.
Qed.

Lemma delete_rows_elem (k : Z) (t : table) (r : gmap string value) :
  r ∈ delete_rows [k] t ↔ r ∈ t ∧ ident r ≠ Some k.
Proof.
  unfold delete_rows. rewrite list_elem_of_filter. simpl.
  rewrite orb_false_r. unfold has_id.
  rewrite bool_decide_spec. tauto.
Qed.

Lemma delete_rows_gone (k : Z) (t : table) : k ∉ ids t → delete_rows [k] t = t.
Proof.
  intros Hk. unfold delete_rows. apply filter_all. intros r Hr. simpl.
  rewrite orb_false_r. unfold has_id. rewrite bool_decide_spec.
  intros Hid. apply Hk, list_elem_of_omap. by exists r.
Qed.

(** The flush of a session that holds one object. *)
Lemma flush_one (t : table) (o : instance) :
  flush {| work := t; objs := [o]; dels := [] |} =
    match flush_object t o with
    | inl c => inl c
    | inr (t', o') => inr {| work := t'; objs := [o']; dels := [] |}
    end.
Proof.
  unfold flush. simpl. destruct (flush_object t o) as [c|[t' o']]; [done|].
  by rewrite delete_rows_nil.
Qed.

(** What a flush leaves in the session has an identity key and the plain
    attributes it had. *)
Lemma flush_object_key (t t' : table) (o o' : instance) :
  flush_object t o = inr (t', o') → is_Some (key o') ∧ extra o' = extra o.
Proof.
  unfold flush_object. destruct (key o) as [k|] eqn:Hk.
  - case_decide; [intros [= _ <-]; by rewrite Hk|].
    destruct (negb _); [done|].
    destruct (existsb _ t); [|done].
    destruct (net_changes o !! "id") as [[|m|]|]; try done.
    + case_decide; [done|]. by intros [= _ <-].
    + by intros [= _ <-].
  - destruct (negb _); [done|].
    destruct (attrs o !! "id") as [[|m|]|]; try done.
    + destruct (next_id t); [|done]. by intros [= _ <-].
    + case_decide; [done|]. by intros [= _ <-].
    + destruct (next_id t); [|done]. by intros [= _ <-].
Qed.

(** The row a fresh object is inserted as. *)
Lemma flush_object_transient (m : Model) (kw : kwargs) (t : table) :
  NoDup kw.*1 → typed m kw → id_available kw t →
  ∃ r n,
    flush_object t (transient kw)
      = inr (t ++ [r],
             {| key := Some n; attrs := r; loaded := r; extra := ∅ |}) ∧
    ident r = Some n ∧ (n ∉ ids t) ∧ in_range n ∧ matches kw r.
Proof.
  intros Hnd Ht Hid. unfold id_available in Hid. unfold flush_object. simpl.
  rewrite (typed_map_bindable m) by done. simpl.
  rewrite getitem_list_to_map.
  destruct (getitem kw "id") as [[|n|]|] eqn:Hkw; try done.
  - exists (list_to_map kw), n. rewrite decide_False by done.
    split_and!; [done| |done| |by apply matches_list_to_map].
    + unfold ident. rewrite getitem_list_to_map. by rewrite Hkw.
    + apply getitem_elem in Hkw.
      destruct (proj1 (typed_spec m kw) Ht _ _ Hkw) as (ty & Hty & Hf).
      unfold column_type in Hty. rewrite decide_True in Hty by done.
      by injection Hty as <-.
  - destruct Hid as [n Hn]. rewrite Hn.
    destruct (next_id_fresh t n Hn) as [Hfresh Hr].
    eexists _, n. split_and!; [done| |done|done|].
    + unfold ident. by rewrite lookup_insert_eq.
    + by apply matches_insert_id.
Qed.

(** ** What the operations answer *)

Section operations.
Variable self : BaseRepository.

(** C9. With no field values [_update] returns [None] as soon as its
    session opens, and whether it opens or not the committed table stays as
    it was. *)
Theorem update_without_fields (obj : instance) (w : world) :
  (_update self obj [] w).1 =
    match faults w with
    | Some c :: _ => Raise (TypeError (Low c))
    | _ => Return None
    end ∧
  db (_update self obj [] w).2 = db w.
Proof.
  destruct w as [t fs s l]. by destruct fs as [|[c|] fs].
Qed.

(** Of several field values [_update] looks at the first only. *)
Lemma update_first_item (obj : instance) k v (rest : kwargs) :
  _update self obj ((k, v) :: rest) = _update self obj [(k, v)].
Proof. reflexivity. Qed.

(** C6. [_filter] and [_get_all] leave the same world and return the same
    list, or raise the same exception. *)
Theorem filter_agrees_with_get_all (kw : kwargs) (w : world) :
  agree (_filter self kw w) (_get_all self kw w).
Proof.
  unfold agree, _filter, _get_all, try_except.
  destruct (with_session _ w) as [[l|e] w']; done.
Qed.

(** What [_get_all] returns when the driver does not fail. *)
Lemma get_all_quiet (kw : kwargs) (w : world) :
  faults w = [] → typed (model self) kw →
  (_get_all self kw w).1 = Return (load <$> select kw (db w)).
Proof.
  destruct w as [t fs s l]. simpl. intros -> Ht. exec.
  by rewrite (typed_mapped _ _ Ht), (typed_bindable _ _ Ht).
Qed.

(** What [_get] answers when the driver does not fail. *)
Lemma get_quiet (kw : kwargs) (w : world) :
  faults w = [] → typed (model self) kw →
  _get self kw w =
    match select kw (db w) with
    | [] => (Return None, close w)
    | [r] => (Return (Some (load r)), close w)
    | _ =>
        (Raise (TypeError (Low MultipleResultsFound)),
         close {| db := db w; faults := faults w; sess := sess w;
                  raised := MultipleResultsFound :: raised w |})
    end.
Proof.
  destruct w as [t fs s l]. simpl. intros -> Ht. exec.
  rewrite (typed_mapped _ _ Ht), (typed_bindable _ _ Ht).
  by destruct (select kw t) as [|r1 [|r2 rs]].
Qed.

(** What [_create] answers when the driver does not fail and the store
    takes the row. *)
Lemma create_quiet (kw : kwargs) (w : world) r n :
  faults w = [] → typed (model self) kw →
  flush_object (db w) (transient kw)
    = inr (db w ++ [r],
           {| key := Some n; attrs := r; loaded := r; extra := ∅ |}) →
  ident r = Some n → n ∉ ids (db w) →
  _create self kw w =
    (Return (load r),
     {| db := db w ++ [r]; faults := []; sess := closed; raised := raised w |}).
Proof.
  destruct w as [t fs s l]. simpl. intros -> Ht Hflush Hr Hn. exec.
  rewrite (typed_mapped _ _ Ht). simpl.
  rewrite flush_one, Hflush. simpl. exec.
  rewrite filter_app, has_id_ids, has_id_self by done. by exec.
Qed.

(** What [_delete] answers for a persistent object when the driver does not
    fail. *)
Lemma delete_quiet (obj : instance) (k : Z) (w : world) :
  faults w = [] → key obj = Some k →
  _delete self obj w =
    (Return tt,
     {| db := delete_rows [k] (db w); faults := []; sess := closed;
        raised := raised w |}).
Proof.
  destruct w as [t fs s l]. simpl. intros -> Hk. exec. by rewrite Hk.
Qed.

(** C7, as amended. As long as the driver does not fail and the filter
    fields name columns with values that fit them, [_get] returns [None]
    when no row matches; and when one row does, with a key, [_get] returns
    it, and after [_delete] of what was returned [_get] returns [None]. *)
Theorem get_returns_none (kw : kwargs) (w : world) :
  faults w = [] →
  typed (model self) kw →
  (filter (λ r, matches kw r) (db w) = [] →
   (_get self kw w).1 = Return None) ∧
  (∀ r, filter (λ r, matches kw r) (db w) = [r] → is_Some (ident r) →
     (_get self kw w).1 = Return (Some (load r)) ∧
     ((_delete self (load r) ;; _get self kw) w).1 = Return None).
Proof.
  intros Hq Ht. split.
  - intros Hnone. by rewrite get_quiet, select_nil.
  - intros r Hone [k Hk]. split; [by rewrite get_quiet, (select_one _ _ r)|].
    unfold mbind, M_bind. rewrite (delete_quiet _ k) by done.
    rewrite get_quiet by done. simpl.
    rewrite select_nil; [done|].
    by rewrite filter_delete_rows, Hone, delete_rows_one.
Qed.


(** X1. With a driver that does not fail, [_create] with the fields of a dict
    that name columns with values that fit them (an [id] among them being a
    free integer) returns an object that has a key and carries every field
    as given, and [_get] by that key then returns the same object. *)
Theorem create_then_get (kw : kwargs) (w : world) :
  faults w = [] →
  NoDup kw.*1 →
  typed (model self) kw →
  id_available kw (db w) →
  ∃ obj n w1,
    _create self kw w = (Return obj, w1) ∧
    key obj = Some n ∧
    (∀ k v, (k, v) ∈ kw → col (attrs obj) k = v) ∧
    (_get self [("id", VInt n)] w1).1 = Return (Some obj).
Proof.
  intros Hq Hnd Ht Hid.
  destruct (flush_object_transient _ kw (db w) Hnd Ht Hid)
    as (r & n & Hf & Hr & Hn & Hin & Hm).
  exists (load r), n. eexists.
  split; [by apply (create_quiet kw w r n)|].
  split; [done|]. split; [by apply matches_spec|].
  rewrite get_quiet; simpl; [|done|].
  - rewrite (select_one _ _ r); [done|].
    rewrite (list_filter_iff _ (λ r, has_id n r)) by apply matches_id.
    by rewrite filter_app, has_id_ids, has_id_self.
  - unfold typed, column_type. simpl. by rewrite andb_true_r.
Qed.
End operations.

(** ** What the read operations and the sessions leave behind *)

Lemma try_except_world {A} msg (m : M A) (w : world) :
  (try_except msg m w).2 = (m w).2.
Proof. unfold try_except. by destruct (m w) as [[a|e] w']. Qed.

(** Whatever the block does, the session it opened is closed behind it; a
    factory that fails opens none. *)
Lemma with_session_sess {A} (body : M A) (w : world) :
  sess (with_session body w).2 =
    match faults w with
    | Some _ :: _ => sess w
    | _ => closed
    end.
Proof.
  destruct w as [t fs s l]. unfold with_session.
  destruct fs as [|[c|] fs]; exec; try done;
    match goal with |- context [body ?w1] => by destruct (body w1) end.
Qed.

(** A block whose calls do not commit leaves the committed table alone. *)
Lemma with_session_db {A} (body : M A) (w : world) :
  (∀ w1, db (body w1).2 = db w1) → db (with_session body w).2 = db w.
Proof.
  intros Hb. destruct w as [t fs s l]. unfold with_session.
  destruct fs as [|[c|] fs]; exec; try done;
    match goal with
    | |- context [body ?w1] =>
        specialize (Hb w1); by destruct (body w1) as [r [t2 f2 s2 l2]]
    end.
Qed.

Lemma select_body_db (m : Model) (kw : kwargs) (w : world) :
  db ((query ← filter_by m kw; execute_select query) w).2 = db w.
Proof.
  unfold filter_by. destruct (filter _ kw); [|done]. exec.
  destruct (forallb bindable kw.*2); by destruct w as [t [|[c|] fs] s l].
Qed.

Section reading.
Variable self : BaseRepository.

Lemma get_db (kw : kwargs) (w : world) : db (_get self kw w).2 = db w.
Proof.
  unfold _get. rewrite try_except_world. apply with_session_db. intros w1.
  pose proof (select_body_db (model self) kw w1) as H.
  unfold mbind, M_bind in *.
  destruct (filter_by (model self) kw w1) as [[q|e] w2]; [|done].
  destruct (execute_select q w2) as [[[|o1 [|o2 os]]|e] w3]; exec; exact H.
Qed.

(** X3. The four read operations never change the committed table, whatever
    the driver does. *)
Theorem reads_keep_table (kw : kwargs) (w : world) :
  db (_get self kw w).2 = db w ∧
  db (_get_all self kw w).2 = db w ∧
  db (_filter self kw w).2 = db w ∧
  db (_exists self kw w).2 = db w.
Proof.
  split; [apply get_db|].
  unfold _get_all, _filter, _exists. rewrite !try_except_world.
  split_and!; apply with_session_db; intros w1.
  - pose proof (select_body_db (model self) kw w1) as H.
    unfold mbind, M_bind in *.
    destruct (filter_by (model self) kw w1) as [[q|e] w2]; [|done].
    by destruct (execute_select q w2) as [[os|e] w3].
  - pose proof (select_body_db (model self) kw w1) as H.
    unfold mbind, M_bind in *.
    destruct (filter_by (model self) kw w1) as [[q|e] w2]; [|done].
    by destruct (execute_select q w2) as [[os|e] w3].
  - destruct (getitem kw "id") as [v|]; [|done]. exec.
    destruct (forallb bindable [v]); by destruct w1 as [t [|[c|] fs] s l].
Qed.

(** A [_get] that returns has opened its session. *)
Lemma get_returns_opened (kw : kwargs) (w : world) x :
  (_get self kw w).1 = Return x →
  match faults w with Some _ :: _ => sess w | _ => closed end = closed.
Proof. destruct w as [t [|[c|] fs] s l]; by exec. Qed.

(** X4. After each of the nine operations, however it ends, the session it
    opened is closed; only when the session factory itself fails is there
    none to close, and the world's session slot is as before. *)
Theorem sessions_are_released (kw : kwargs) (obj : instance) (w : world) :
  let after := match faults w with
               | Some _ :: _ => sess w
               | _ => closed
               end in
  sess (_create self kw w).2 = after ∧
  sess (_get self kw w).2 = after ∧
  sess (_create_if_not_exists self kw w).2 = after ∧
  sess (_get_all self kw w).2 = after ∧
  sess (_update self obj kw w).2 = after ∧
  sess (_delete self obj w).2 = after ∧
  sess (_exists self kw w).2 = after ∧
  sess (_filter self kw w).2 = after ∧
  sess (_delete_all self w).2 = after.
Proof.
  intros after. subst after.
  assert (∀ w', sess (_create self kw w').2 =
    match faults w' with Some _ :: _ => sess w' | _ => closed end) as Hc.
  { intros w'. unfold _create. rewrite try_except_world. apply with_session_sess. }
  assert (sess (_get self kw w).2 =
    match faults w with Some _ :: _ => sess w | _ => closed end) as Hg.
  { unfold _get. rewrite try_except_world. apply with_session_sess. }
  split_and!; try done;
    try (unfold _get_all, _update, _delete, _exists, _filter, _delete_all;
         rewrite try_except_world; apply with_session_sess).
  unfold _create_if_not_exists. rewrite try_except_world.
  unfold mbind, M_bind.
  pose proof (get_returns_opened kw w) as Ho.
  destruct (_get self kw w) as [[[o|]|e] w1]; simpl in *; try done.
  specialize (Hc w1).
  destruct (_create self kw w1) as [[o|e] w2]; simpl in *;
    rewrite Hc, Hg, (Ho None eq_refl); by destruct (faults w1) as [|[?|] ?].
Qed.

(** X13. With a driver that does not fail and filter fields that name
    columns with values that fit them, [_get] answers from the list that
    [_get_all] returns: [None] for the empty list, the object for a list of
    one, and for a longer list the [TypeError] that stands where the
    repository's error was meant, raised while [MultipleResultsFound] was
    handled. *)
Theorem get_follows_get_all (kw : kwargs) (w : world) :
  faults w = [] →
  typed (model self) kw →
  ∃ l,
    (_get_all self kw w).1 = Return l ∧
    match l with
    | [] => (_get self kw w).1 = Return None
    | [o] => (_get self kw w).1 = Return (Some o)
    | _ => (_get self kw w).1 = Raise (TypeError (Low MultipleResultsFound))
    end.
Proof.
  intros Hq Ht. exists (load <$> select kw (db w)).
  split; [by apply get_all_quiet|]. rewrite get_quiet by done.
  by destruct (select kw (db w)) as [|r1 [|r2 rs]].
Qed.

(** X12. With a driver that does not fail and filter fields that name
    columns with values that fit them, [_get_all] returns, in some order,
    the objects of the rows in which every filter field has the given
    value, each row once; with no filter field these are all rows. *)
Theorem get_all_selects (kw : kwargs) (w : world) :
  faults w = [] →
  typed (model self) kw →
  ∃ l,
    (_get_all self kw w).1 = Return l ∧
    l ≡ₚ load <$> filter (λ r, matches kw r) (db w) ∧
    (∀ o, o ∈ l ↔
       ∃ r, r ∈ db w ∧ o = load r ∧ ∀ k v, (k, v) ∈ kw → col r k = v) ∧
    (kw = [] → l ≡ₚ load <$> db w).
Proof.
  intros Hq Ht. exists (load <$> select kw (db w)).
  split; [by apply get_all_quiet|]. split; [by rewrite select_perm|]. split.
  - intros o. rewrite select_perm, list_elem_of_fmap. split.
    + intros (r & -> & [Hm Hr]%list_elem_of_filter). exists r.
      split_and!; [done..|]. by apply matches_spec.
    + intros (r & Hr & -> & Hm). exists r. split; [done|].
      apply list_elem_of_filter. split; [|done]. by apply matches_spec.
  - intros ->. by rewrite select_all.
Qed.

(** X2. With a driver that does not fail, after [_delete_all] the table is
    empty and [_get_all] without filter returns the empty list. *)
Theorem delete_all_then_get_all (w : world) :
  faults w = [] →
  ∃ w1,
    _delete_all self w = (Return tt, w1) ∧ db w1 = [] ∧
    (_get_all self [] w1).1 = Return [].
Proof.
  destruct w as [t fs s l]. simpl. intros ->. eexists. by exec.
Qed.

(** X7. When some row matches the filter fields, [_create_if_not_exists]
    creates nothing: the committed table stays as it was and the flag it
    returns is never [True], whatever the driver does. *)
Theorem create_if_not_exists_finds (kw : kwargs) (w : world) :
  filter (λ r, matches kw r) (db w) ≠ [] →
  db (_create_if_not_exists self kw w).2 = db w ∧
  ∀ obj, (_create_if_not_exists self kw w).1 ≠ Return (obj, true).
Proof.
  destruct w as [t fs s l]. simpl. intros Hsome.
  assert (select kw t ≠ []) as Hsel.
  { intros Hnil. apply Hsome, Permutation_nil_r.
    by rewrite <-select_perm, Hnil. }
  unfold _create_if_not_exists, _get, filter_by.
  destruct (filter _ kw); [|by destruct fs as [|[c|] fs]].
  destruct fs as [|[c|] [|[c'|] fs]]; exec; try done;
    destruct (forallb bindable kw.*2); try done;
    by destruct (select kw t) as [|r1 [|r2 rs]].
Qed.
End reading.

(** ** Writing *)

(** An explicit key that is taken is refused. *)
Lemma flush_object_taken (m : Model) (kw : kwargs) (t : table) (n : Z) :
  typed m kw → getitem kw "id" = Some (VInt n) → n ∈ ids t →
  flush_object t (transient kw) = inl IntegrityError.
Proof.
  intros Ht Hid Hn. unfold flush_object. simpl.
  rewrite (typed_map_bindable m) by done. simpl.
  rewrite getitem_list_to_map, Hid. by rewrite decide_True.
Qed.

(** The block that [_create] and [_update] share commits the flush of the
    object, or nothing. *)
Lemma save_block_db {A} (o : instance) (f : instance → A) t fs l :
  let block := (h ← session_add o; commit ;; obj ← refresh h; mret (f obj)) in
  db (block (opened t fs l)).2 = t ∨
  ∃ t' o', flush_object t o = inr (t', o') ∧ db (block (opened t fs l)).2 = t'.
Proof.
  unfold opened.
  destruct fs as [|[c|] [|[c'|] fs]]; exec; simpl; auto;
    rewrite flush_one;
    destruct (flush_object t o) as [c0|[t' o']] eqn:Hf; simpl; auto;
    destruct (flush_object_key _ _ _ _ Hf) as [[k Hk] _];
    destruct o' as [ko ao lo xo]; simpl in Hk; subst ko; exec; simpl;
    try destruct (filter (λ r, has_id k r) t') as [|r0 rs]; simpl; eauto.
Qed.

(** A property of the committed table that every block keeps is kept by the
    operation around it. *)
Lemma with_session_keeps {A} (P : table → Prop) (body : M A) (w : world) :
  (∀ t fs l, P t → P (db (body (opened t fs l)).2)) →
  P (db w) → P (db (with_session body w).2).
Proof.
  intros Hb. destruct w as [t fs s l]. simpl. intros Ht. unfold with_session.
  destruct fs as [|[c|] fs]; exec; try done;
    match goal with
    | |- context [body ?w1] =>
        match w1 with
        | {| faults := ?fs1 |} => specialize (Hb t fs1 l Ht)
        end;
        unfold opened in Hb; by destruct (body w1) as [r [t2 f2 s2 l2]]
    end.
Qed.

Section writing.
Variable self : BaseRepository.

(** X6. [_create] with fields that fit their columns and an [id] that a row
    already has raises and stores nothing: the [TypeError] that stands where
    the repository's error was meant, raised while [IntegrityError] was
    handled, or the fault of the driver if one comes first. *)
Theorem create_taken_id (kw : kwargs) (n : Z) (w : world) :
  typed (model self) kw →
  getitem kw "id" = Some (VInt n) →
  n ∈ ids (db w) →
  (_create self kw w).1 =
    Raise (TypeError
             (Low match faults w with
                  | Some c :: _ | None :: Some c :: _ => c
                  | _ => IntegrityError
                  end)) ∧
  db (_create self kw w).2 = db w.
Proof.
  destruct w as [t fs s l]. simpl. intros Ht Hid Hn.
  destruct fs as [|[c|] [|[c'|] fs]]; exec; simpl; try done;
    rewrite (typed_mapped _ _ Ht); simpl; try done;
    by rewrite flush_one, (flush_object_taken (model self) kw t n).
Qed.

(** X11. [_update] with some field value, for an object whose key no row has
    (its row was deleted), raises and leaves the committed table as it was,
    whatever the driver does: it never creates the row again.  What it
    raises is the [TypeError] that stands where the repository's error was
    meant. *)
Theorem update_without_row (obj : instance) (k : Z) (kw : kwargs) (w : world) :
  key obj = Some k →
  k ∉ ids (db w) →
  kw ≠ [] →
  (∃ e, (_update self obj kw w).1 = Raise (TypeError (Low e))) ∧
  db (_update self obj kw w).2 = db w.
Proof.
  destruct w as [t fs s l]. simpl. intros Hk Hgone Hkw.
  destruct kw as [|[c v] rest]; [done|].
  set (o := setattr (model self) obj c v).
  assert (key o = Some k) as Hko.
  { unfold o, setattr. by destruct (mapped _ c). }
  assert (flush_object t o = inl StaleDataError ∨
          flush_object t o = inl OverflowError ∨
          flush_object t o = inr (t, o)) as Hf.
  { unfold flush_object. rewrite Hko. case_decide; [auto|].
    destruct (negb _); [auto|]. rewrite has_id_existsb by done. auto. }
  destruct fs as [|[c1|] [|[c2|] [|[c3|] fs]]]; exec; simpl; eauto;
    fold o; rewrite flush_one; destruct Hf as [-> | [-> | ->]]; simpl; eauto;
    destruct o as [ko ao lo xo]; simpl in Hko; subst ko; exec; eauto;
    rewrite has_id_ids by done; eauto.
Qed.

(** X10. With a driver that does not fail, [_delete] of a persisted object
    returns, and the rows left are exactly the rows that do not have its
    key; when no row has it, the table is unchanged. *)
Theorem delete_removes_key (obj : instance) (k : Z) (w : world) :
  faults w = [] →
  key obj = Some k →
  ∃ w1,
    _delete self obj w = (Return tt, w1) ∧
    (∀ r, r ∈ db w1 ↔ r ∈ db w ∧ ident r ≠ Some k) ∧
    (k ∉ ids (db w) → db w1 = db w).
Proof.
  intros Hq Hk. eexists. split; [by apply delete_quiet|]. simpl.
  split; [apply delete_rows_elem|apply delete_rows_gone].
Qed.

(** X14. [_delete] of an object that was never persisted raises and leaves
    the committed table as it was: the [TypeError] that stands where the
    repository's error was meant, raised while the session's
    [InvalidRequestError] was handled, or the fault of the driver if the
    session factory fails first. *)
Theorem delete_unsaved (obj : instance) (w : world) :
  key obj = None →
  (_delete self obj w).1 =
    Raise (TypeError
             (Low match faults w with
                  | Some c :: _ => c
                  | _ => InvalidRequestError
                  end)) ∧
  db (_delete self obj w).2 = db w.
Proof.
  destruct w as [t fs s l]. simpl. intros Hk.
  destruct fs as [|[c|] fs]; exec; by rewrite ?Hk.
Qed.

(** X9. What [_exists] answers, in every world: [True] when an [id] is
    given that the driver can bind and the driver does not fail, whatever
    the table holds; otherwise the [TypeError] that stands where the
    repository's error was meant.  It never returns [False]. *)
Theorem exists_outcome (kw : kwargs) (w : world) :
  let error c := Raise (TypeError (Low c)) in
  (_exists self kw w).1 =
    match faults w, getitem kw "id" with
    | Some c :: _, _ => error c
    | _, None => error (KeyError "id")
    | None :: Some c :: _, Some _ => error c
    | _, Some v => if bindable v then Return true else error OverflowError
    end.
Proof.
  destruct w as [t fs s l]. simpl.
  destruct fs as [|[c|] [|[c'|] fs]]; exec; try done;
    destruct (getitem kw "id") as [v|]; try done; simpl;
    rewrite andb_true_r; by destruct (bindable v).
Qed.
End writing.

(** ** The field an update writes *)

Lemma net_changes_insert (k : option Z) (r x : gmap string value)
    (c : string) (v : value) :
  net_changes {| key := k; attrs := <[c := v]> r; loaded := r; extra := x |} =
    if decide (col r c = v) then ∅ else {[c := v]}.
Proof.
  unfold net_changes. simpl. apply map_eq. intros j. apply option_eq. intros y.
  rewrite map_lookup_filter_Some, lookup_insert_Some. simpl.
  case_decide as Hcv.
  - rewrite lookup_empty. split; [|done]. unfold col in *.
    intros [[[-> ->]|[? Hj]] Hne]; [done|]. by rewrite Hj in Hne.
  - rewrite lookup_singleton_Some. split.
    + unfold col. intros [[[-> ->]|[? Hj]] Hne]; [done|]. by rewrite Hj in Hne.
    + intros [-> ->]. split; [by left|done].
Qed.

Lemma ident_insert (r : gmap string value) (c : string) (v : value) :
  c ≠ "id" → ident (<[c := v]> r) = ident r.
Proof. intros Hc. unfold ident. by rewrite lookup_insert_ne. Qed.

Lemma col_insert (r : gmap string value) (c c' : string) (v : value) :
  col (<[c := v]> r) c' = if decide (c' = c) then v else col r c'.
Proof.
  unfold col. case_decide; subst; [by rewrite lookup_insert_eq|].
  by rewrite lookup_insert_ne.
Qed.

(** Rewriting the rows of key [k] without touching their key moves no row in
    or out of the rows of that key. *)
Lemma filter_rewritten (k : Z) (g : gmap string value → gmap string value)
    (t : table) :
  (∀ x, ident (g x) = ident x) →
  filter (λ x, has_id k x) ((λ x, if has_id k x then g x else x) <$> t)
    = g <$> filter (λ x, has_id k x) t ∧
  filter (λ x, ¬ has_id k x) ((λ x, if has_id k x then g x else x) <$> t)
    = filter (λ x, ¬ has_id k x) t.
Proof.
  intros Hg. induction t as [|x t [IH1 IH2]]; [done|].
  assert (has_id k (g x) = has_id k x) as Hgx by (unfold has_id; by rewrite Hg).
  rewrite fmap_cons, !filter_cons.
  destruct (has_id k x) eqn:Hx; rewrite ?Hgx, ?Hx; simpl;
    rewrite ?IH1, ?IH2; repeat case_decide; naive_solver.
Qed.

Section first_field.
Variable self : BaseRepository.

(** X5. With a driver that does not fail, [_update] of the object loaded from
    the one row of key [k], with field values that start with a column other
    than [id] and a value that fits it, returns the object of the row as it
    is afterwards: that column has the new value and every other column the
    old one, whatever further field values were given.  The rows of other
    keys are as before. *)
Theorem update_sets_first_field (r : gmap string value) (k : Z)
    (c : string) (v : value) (rest : kwargs) (w : world) :
  faults w = [] →
  filter (λ x, has_id k x) (db w) = [r] →
  c ≠ "id" →
  typed (model self) [(c, v)] →
  ∃ r' w1,
    _update self (load r) ((c, v) :: rest) w = (Return (Some (load r')), w1) ∧
    (∀ c', col r' c' = if decide (c' = c) then v else col r c') ∧
    filter (λ x, has_id k x) (db w1) = [r'] ∧
    filter (λ x, ¬ has_id k x) (db w1) = filter (λ x, ¬ has_id k x) (db w).
Proof.
  destruct w as [t fs s l]. simpl. intros -> Hone Hc Ht.
  assert (r ∈ filter (λ x, has_id k x) t) as Hr by (rewrite Hone; left).
  apply list_elem_of_filter in Hr as [Hrk Hrt].
  assert (ident r = Some k) as Hk by (by apply bool_decide_unpack in Hrk).
  destruct (proj1 (typed_spec (model self) [(c, v)]) Ht c v)
    as (ty & Hty & Hfit); [left|].
  assert (mapped (model self) c = true) as Hm.
  { unfold mapped. apply bool_decide_eq_true. by rewrite Hty. }
  assert (bindable v = true) as Hb.
  { apply Is_true_true. by eapply fits_bindable. }
  destruct (decide (col r c = v)) as [Hcv|Hcv].
  - exists r. eexists. exec. simpl. rewrite flush_one.
    unfold flush_object, setattr, load. rewrite Hm. simpl.
    rewrite Hk, net_changes_insert.
    rewrite (decide_True _ _ Hcv). rewrite decide_True by done. simpl. exec.
    rewrite Hone. split; [by rewrite Hk|]. simpl. split_and!; [|done..].
    intros c'. case_decide; by subst.
  - exists (<[c := v]> r). eexists. exec. simpl. rewrite flush_one.
    unfold flush_object, setattr, load. rewrite Hm. simpl.
    rewrite Hk, net_changes_insert.
    rewrite (decide_False _ _ Hcv).
    rewrite decide_False by apply map_non_empty_singleton.
    rewrite map_to_list_singleton. simpl. rewrite Hb. simpl.
    assert (existsb (has_id k) t = true) as ->.
    { apply existsb_exists. exists r. split; [by apply list_elem_of_In|].
      by apply Is_true_true. }
    rewrite lookup_singleton_ne by done. simpl. exec.
    destruct (filter_rewritten k (λ x, {[c := v]} ∪ x) t) as [H1 H2].
    { intros x. rewrite <-insert_union_singleton_l. by apply ident_insert. }
    rewrite H1, Hone. simpl. rewrite <-insert_union_singleton_l.
    split; [by rewrite ident_insert, Hk|].
    split; [intros c'; apply col_insert|]. simpl.
    rewrite H1, H2, Hone. simpl. by rewrite <-insert_union_singleton_l.
Qed.
End first_field.

(** ** The primary key *)

Lemma ids_cons (r : gmap string value) (t : table) :
  ids (r :: t) = match ident r with Some n => n :: ids t | None => ids t end.
Proof. unfold ids. simpl. by destruct (ident r). Qed.

Lemma ids_app_one (t : table) (r : gmap string value) (n : Z) :
  ident r = Some n → ids (t ++ [r]) = ids t ++ [n].
Proof. intros Hr. unfold ids. rewrite omap_app. simpl. by rewrite Hr. Qed.

Lemma keyed_nil : keyed [].
Proof. split; [constructor|]. apply NoDup_nil_2. Qed.

Lemma keyed_app_one (t : table) (r : gmap string value) (n : Z) :
  keyed t → ident r = Some n → n ∉ ids t → keyed (t ++ [r]).
Proof.
  intros [Hall Hnd] Hr Hn. split.
  - apply Forall_app. split; [done|]. constructor; [by rewrite Hr|constructor].
  - rewrite (ids_app_one t r n Hr). apply NoDup_app. split_and!; [done| |].
    + by intros x Hx ->%list_elem_of_singleton.
    + apply NoDup_singleton.
Qed.

Lemma ids_filter (P : gmap string value → Prop) `{!∀ r, Decision (P r)}
    (t : table) :
  ids (filter P t) `sublist_of` ids t.
Proof.
  induction t as [|r t IH]; [done|].
  rewrite filter_cons, (ids_cons r t). case_decide.
  - rewrite ids_cons. destruct (ident r); [by apply sublist_skip|done].
  - destruct (ident r); [by apply sublist_cons|done].
Qed.

Lemma keyed_filter (P : gmap string value → Prop) `{!∀ r, Decision (P r)}
    (t : table) :
  keyed t → keyed (filter P t).
Proof.
  intros [Hall Hnd]. split.
  - apply Forall_forall. intros r [_ Hr]%list_elem_of_filter.
    by eapply Forall_forall in Hall.
  - apply (sublist_NoDup _ _ Hnd), ids_filter.
Qed.

(** Rows rewritten without touching their key. *)
Lemma keyed_rewritten (f : gmap string value → gmap string value) (t : table) :
  (∀ x, x ∈ t → ident (f x) = ident x) → keyed t → keyed (f <$> t).
Proof.
  intros Hf [Hall Hnd].
  assert (ids (f <$> t) = ids t) as Hids.
  { clear Hall Hnd. induction t as [|x t IH]; [done|].
    rewrite fmap_cons, !ids_cons, Hf by left.
    rewrite IH; [done|]. intros y Hy. apply Hf. by right. }
  split; [|by rewrite Hids].
  apply Forall_fmap, Forall_forall. intros x Hx. simpl. rewrite Hf by done.
  by eapply Forall_forall in Hall.
Qed.

(** The rows of key [k] moved to the free key [m]. *)
Lemma keyed_moved (k m : Z) (f : gmap string value → gmap string value)
    (t : table) :
  (∀ x, ident (f x) = Some m) → m ∉ ids t → keyed t →
  keyed ((λ x, if has_id k x then f x else x) <$> t) ∧
  ∀ n, n ∈ ids ((λ x, if has_id k x then f x else x) <$> t) →
       n = m ∨ n ∈ ids t.
Proof.
  intros Hf. induction t as [|x t IH].
  { intros _ _. split; [apply keyed_nil|]. by intros n ?%elem_of_nil. }
  intros Hm [Hall Hnd]. rewrite ids_cons in Hm, Hnd.
  apply Forall_cons in Hall as [[i Hi] Hall]. rewrite Hi in Hm, Hnd.
  apply NoDup_cons in Hnd as [Hit Hnd]. apply not_elem_of_cons in Hm as [Hmi Hm].
  destruct (IH Hm (conj Hall Hnd)) as [[IHall IHnd] IHin].
  rewrite fmap_cons. unfold has_id at 1 3. destruct (decide (i = k)) as [->|Hik].
  - rewrite bool_decide_true by done.
    assert (((λ x, if has_id k x then f x else x) <$> t) = t) as Hsame.
    { rewrite <-(list_fmap_id t) at 2. apply list_fmap_ext. intros j y Hy.
      simpl. unfold has_id. rewrite bool_decide_false; [done|].
      intros Hyk. apply Hit, list_elem_of_omap. exists y.
      split; [|done]. by eapply list_elem_of_lookup_2. }
    rewrite Hsame. split.
    + split; [constructor; [by rewrite Hf|done]|].
      rewrite ids_cons, Hf. by apply NoDup_cons.
    + intros n. rewrite !ids_cons, Hf, Hi, !elem_of_cons. intros [?|?]; auto.
  - rewrite bool_decide_false by (rewrite Hi; congruence). split.
    + split; [constructor; [by rewrite Hi|done]|].
      rewrite ids_cons, Hi. apply NoDup_cons. split; [|done].
      intros [->|?]%IHin; done.
    + intros n. rewrite !ids_cons, Hi, !elem_of_cons.
      intros [->|[->|?]%IHin]; auto.
Qed.

(** Whatever statement a flush emits, a keyed table stays keyed. *)
Lemma flush_object_keyed (t t' : table) (o o' : instance) :
  keyed t → flush_object t o = inr (t', o') → keyed t'.
Proof.
  intros Ht. unfold flush_object. destruct (key o) as [k|].
  - case_decide; [by intros [= <- _]|].
    destruct (negb _); [done|].
    destruct (existsb _ t); [|done].
    destruct (net_changes o !! "id") as [[|m|]|] eqn:Hid; try done.
    + case_decide as Hm; [done|]. intros [= <- _].
      destruct (decide (m = k)) as [->|Hmk].
      * apply keyed_rewritten; [|done]. intros x _. unfold has_id.
        case_bool_decide as Hx; [|done]. rewrite Hx. unfold ident.
        by rewrite (lookup_union_Some_l _ _ _ _ Hid).
      * apply (keyed_moved k m (λ x, net_changes o ∪ x)); [|tauto|done].
        intros x. unfold ident. by rewrite (lookup_union_Some_l _ _ _ _ Hid).
    + intros [= <- _]. apply keyed_rewritten; [|done]. intros x _.
      case_match; [|done]. unfold ident. by rewrite lookup_union_r.
  - destruct (negb _); [done|].
    destruct (attrs o !! "id") as [[|m|]|] eqn:Hid; try done.
    + destruct (next_id t) as [n|] eqn:Hn; [|done]. intros [= <- _].
      apply (keyed_app_one _ _ n); [done| |].
      * unfold ident. by rewrite lookup_insert_eq.
      * by apply next_id_fresh.
    + case_decide; [done|]. intros [= <- _].
      apply (keyed_app_one _ _ m); [done| |done]. unfold ident. by rewrite Hid.
    + destruct (next_id t) as [n|] eqn:Hn; [|done]. intros [= <- _].
      apply (keyed_app_one _ _ n); [done| |].
      * unfold ident. by rewrite lookup_insert_eq.
      * by apply next_id_fresh.
Qed.

(** The block that [_create] and [_update] share keeps the primary key. *)
Lemma save_block_keyed {A} (o : instance) (f : instance → A) t fs l :
  keyed t →
  keyed (db ((h ← session_add o; commit ;; obj ← refresh h; mret (f obj))
               (opened t fs l)).2).
Proof.
  intros Ht.
  destruct (save_block_db o f t fs l) as [H|(t' & o' & Hf & H)];
    cbv zeta in H; rewrite H; [done|]. by eapply flush_object_keyed.
Qed.

Section keys.
Variable self : BaseRepository.

Lemma create_keyed (kw : kwargs) (w : world) :
  keyed (db w) → keyed (db (_create self kw w).2).
Proof.
  unfold _create. rewrite try_except_world. apply with_session_keeps.
  intros t fs l Ht. unfold construct.
  destruct (filter _ kw) as [|[k v] q].
  - exact (save_block_keyed (transient kw) id t fs l Ht).
  - exact Ht.
Qed.

(** X8. Each of the five operations that write keeps the primary key: on a
    table in which every row has an integer [id] and no two rows the same,
    it leaves such a table, with whatever arguments and whatever the driver
    does. *)
Theorem writes_keep_keys (kw : kwargs) (obj : instance) (w : world) :
  keyed (db w) →
  keyed (db (_create self kw w).2) ∧
  keyed (db (_update self obj kw w).2) ∧
  keyed (db (_delete self obj w).2) ∧
  keyed (db (_delete_all self w).2) ∧
  keyed (db (_create_if_not_exists self kw w).2).
Proof.
  intros Hk. split_and!.
  - by apply create_keyed.
  - revert Hk. unfold _update. rewrite try_except_world.
    apply with_session_keeps. intros t fs l Ht.
    destruct kw as [|[c v] rest]; [exact Ht|].
    exact (save_block_keyed (setattr (model self) obj c v) Some t fs l Ht).
  - destruct w as [t fs s l]. simpl in Hk.
    destruct (key obj) as [k|] eqn:Hkey;
      destruct fs as [|[c|] [|[c'|] [|[c''|] fs]]]; exec; rewrite ?Hkey;
      simpl; try done; by apply keyed_filter.
  - destruct w as [t fs s l]. simpl in Hk.
    destruct fs as [|[c|] [|[c'|] [|[c''|] fs]]]; exec; simpl; try done;
      apply keyed_nil.
  - unfold _create_if_not_exists. rewrite try_except_world.
    unfold mbind, M_bind. pose proof (get_db self kw w) as Hg.
    destruct (_get self kw w) as [[[o|]|e] w1]; simpl in *; try by rewrite Hg.
    rewrite <-Hg in Hk. apply (create_keyed kw) in Hk.
    by destruct (_create self kw w1) as [[o|e] w2].
Qed.
End keys.

(** ** One commit, or none *)

Section atomic.
Variable self : BaseRepository.

(** X16. Whatever the driver does, [_create], [_delete] and [_delete_all]
    commit their whole change or nothing.  For fields of a dict that name
    columns with values that fit them, with a usable key: when [_create]
    returns, the table has one more row, under a key no row had, holding
    every field as given, and the object returned is that row; when it
    raises, the table is as it was, or (the driver failed after the commit)
    has that one whole row more.  When [_delete] of a persisted object
    returns, the rows left are those that do not have its key, and when it
    raises the table is as it was; likewise [_delete_all] leaves no row, or
    every row. *)
Theorem writes_commit_whole_or_nothing
    (kw : kwargs) (obj : instance) (k : Z) (w : world) :
  NoDup kw.*1 →
  typed (model self) kw →
  id_available kw (db w) →
  key obj = Some k →
  let created (t : table) (r : gmap string value) :=
    t = db w ++ [r] ∧
    (∃ n, ident r = Some n ∧ n ∉ ids (db w)) ∧
    ∀ c v, (c, v) ∈ kw → col r c = v in
  match _create self kw w with
  | (Return o, w1) => ∃ r, created (db w1) r ∧ o = load r
  | (Raise _, w1) => db w1 = db w ∨ ∃ r, created (db w1) r
  end ∧
  match _delete self obj w with
  | (Return _, w1) => db w1 = filter (λ r, ident r ≠ Some k) (db w)
  | (Raise _, w1) => db w1 = db w
  end ∧
  match _delete_all self w with
  | (Return _, w1) => db w1 = []
  | (Raise _, w1) => db w1 = db w
  end.
Proof.
  destruct w as [t fs s l]. simpl. intros Hnd Ht Hid Hk.
  destruct (flush_object_transient _ kw t Hnd Ht Hid)
    as (r & n & Hf & Hr & Hn & _ & Hm).
  assert (∀ c v, (c, v) ∈ kw → col r c = v) as Hfields
    by (by apply matches_spec).
  split_and!.
  - destruct fs as [|[c1|] [|[c2|] [|[c3|] fs]]]; exec;
      rewrite ?(typed_mapped _ _ Ht); simpl; auto;
      rewrite flush_one, Hf; simpl; exec;
      rewrite ?filter_app, ?has_id_ids, ?has_id_self by done; exec;
      try (right); exists r; split_and!; eauto.
  - assert (delete_rows [k] t = filter (λ r, ident r ≠ Some k) t) as Hd.
    { unfold delete_rows. apply list_filter_iff. intros x. simpl.
      rewrite orb_false_r. unfold has_id.
      by rewrite bool_decide_spec. }
    destruct fs as [|[c1|] [|[c2|] [|[c3|] fs]]]; exec; rewrite ?Hk; exec;
      simpl; by rewrite ?Hd.
  - destruct fs as [|[c1|] [|[c2|] [|[c3|] fs]]]; by exec.
Qed.
End atomic.

(** ** The operations on a small table *)

(** C1. [_update] with two field values, on the user stored under key 1 with
    name ["a"] and flag [False]: the call returns the user with the new name
    and the old flag, and that is the row committed.  The second field value
    is dropped. *)
Theorem update_drops_second_field :
  _update User (load user_a) [("name", VStr "b"); ("flag", VBool true)] one_user
  = (Return (Some (load (<["name" := VStr "b"]> user_a))),
     {| db := [<["name" := VStr "b"]> user_a]; faults := []; sess := closed;
        raised := [] |}) ∧
  col (<["name" := VStr "b"]> user_a) "flag" = VBool false.
Proof. split; by vm_compute. Qed.

(** C2. A user is created, [_exists] is asked for its key, the user is
    deleted and [_exists] is asked again: the answer is [True] both times,
    though the table is empty at the end. *)
Theorem exists_true_after_delete :
  (obj ← _create User [("name", VStr "a")];
   before ← _exists User [("id", col (attrs obj) "id")];
   _delete User obj ;;
   after ← _exists User [("id", col (attrs obj) "id")];
   mret (col (attrs obj) "id", before, after)) fresh
  = (Return (VInt 1, true, true), fresh).
Proof. by vm_compute. Qed.

(** C3. The driver fails while [_get] runs its query (a lost connection):
    what leaves [_get] is a [TypeError], raised in the handler by the call
    that was to build the repository's error, and the fault of the driver is
    what was being handled.  [_create_if_not_exists] handles that
    [TypeError] in a handler of the same kind, so a second [TypeError]
    leaves it. *)
Theorem get_fault_raises_type_error :
  let w := {| db := [user_a]; faults := [None; Some (DriverError 7)];
              sess := closed; raised := [] |} in
  (_get User [("name", VStr "a")] w).1 = Raise (TypeError (Low (DriverError 7))) ∧
  (_create_if_not_exists User [("name", VStr "a")] w).1
    = Raise (TypeError (TypeError (Low (DriverError 7)))).
Proof. split; by vm_compute. Qed.

(** C4. [_update] with two field values returns normally, and what it has
    committed is neither the row as it was nor the row with the change asked
    for: one field of the two is stored. *)
Theorem update_commits_part_of_change :
  let kw := [("name", VStr "b"); ("flag", VBool true)] in
  let r := <["name" := VStr "b"]> user_a in
  _update User (load user_a) kw one_user
    = (Return (Some (load r)),
       {| db := [r]; faults := []; sess := closed; raised := [] |}) ∧
  r ≠ user_a ∧
  r ≠ apply_fields kw user_a.
Proof.
  split; [by vm_compute|].
  split; intros H.
  - apply (f_equal (λ m : gmap string value, m !! "name")) in H.
    by vm_compute in H.
  - apply (f_equal (λ m : gmap string value, m !! "flag")) in H.
    by vm_compute in H.
Qed.


(** No row matches, and [_get] raises all the same: for a filter field that
    is no column, and when the driver fails. *)
Lemma get_without_match_raises :
  filter (λ r, matches [("bogus", VInt 1)] r) (db one_user) = [] ∧
  (_get User [("bogus", VInt 1)] one_user).1
    = Raise (TypeError (Low InvalidRequestError)) ∧
  filter (λ r, matches [("name", VStr "z")] r) [user_a] = [] ∧
  (_get User [("name", VStr "z")]
     {| db := [user_a]; faults := [None; Some (DriverError 7)];
        sess := closed; raised := [] |}).1
    = Raise (TypeError (Low (DriverError 7))).
Proof. split_and!; by vm_compute. Qed.

(** C8. [_exists] without an [id]: the [KeyError] of the lookup is handled,
    and a [TypeError] leaves the handler. *)
Theorem exists_without_id_raises_type_error :
  _exists User [("name", VStr "a")] one_user
  = (Raise (TypeError (Low (KeyError "id"))),
     {| db := [user_a]; faults := []; sess := closed;
        raised := [KeyError "id"] |}).
Proof. by vm_compute. Qed.

(** C10. Two rows match the filter fields of [_get]:
    [MultipleResultsFound] is handled, and a [TypeError] leaves the
    handler. *)
Theorem get_many_raises_type_error :
  length (filter (λ r, matches [("name", VStr "a")] r) (db two_users)) = 2%nat ∧
  _get User [("name", VStr "a")] two_users
  = (Raise (TypeError (Low MultipleResultsFound)),
     {| db := db two_users; faults := []; sess := closed;
        raised := [MultipleResultsFound] |}).
Proof. split; by vm_compute. Qed.

(** A fault of the driver after the commit: [_create] raises, and the row is
    committed as a whole. *)
Example create_refresh_fault :
  _create User [("name", VStr "a")]
    {| db := []; faults := [None; None; Some (DriverError 7)]; sess := closed;
       raised := [] |}
  = (Raise (TypeError (Low (DriverError 7))),
     {| db := [{[ "id" := VInt 1; "name" := VStr "a" ]}]; faults := [];
        sess := closed; raised := [DriverError 7] |}).
Proof. by vm_compute. Qed.

(** [_exists] answers [True] for a key that no row has. *)
Example exists_unknown_key :
  (_exists User [("id", VInt 5)] one_user).1 = Return true.
Proof. by vm_compute. Qed.

(** [True] and [1] are the same value to the store: [_get] by [id=True]
    finds the user of key 1, and [flag=0] the user whose flag is [False]. *)
Example get_by_true :
  (_get User [("id", VBool true)] one_user).1 = Return (Some (load user_a)) ∧
  (_get User [("flag", VInt 0)] one_user).1 = Return (Some (load user_a)).
Proof. split; by vm_compute. Qed.

(** A key outside the range of the store is refused and nothing is stored. *)
Example create_key_out_of_range :
  _create User [("id", VInt (2 ^ 63))] one_user
  = (Raise (TypeError (Low OverflowError)),
     {| db := [user_a]; faults := []; sess := closed;
        raised := [OverflowError] |}).
Proof. by vm_compute. Qed.

(** The generated key is one more than the largest, also below zero; the
    query answers in key order. *)
Example keys_below_zero :
  next_id [{[ "id" := VInt (-5) ]}; {[ "id" := VInt (-7) ]}] = Some (-4) ∧
  select [] [{[ "id" := VInt 5 ]}; {[ "id" := VInt 2 ]}]
    = [{[ "id" := VInt 2 ]}; {[ "id" := VInt 5 ]}].
Proof. split; by vm_compute. Qed.

(** ** The properties on a small table *)

Lemma get_returns_none_witness :
  faults one_user = [] ∧
  typed (model User) [("name", VStr "z")] ∧
  filter (λ r, matches [("name", VStr "z")] r) (db one_user) = [] ∧
  (_get User [("name", VStr "z")] one_user).1 = Return None ∧
  typed (model User) [("name", VStr "a")] ∧
  filter (λ r, matches [("name", VStr "a")] r) (db one_user) = [user_a] ∧
  is_Some (ident user_a) ∧
  (_get User [("name", VStr "a")] one_user).1 = Return (Some (load user_a)) ∧
  ((_delete User (load user_a) ;; _get User [("name", VStr "a")]) one_user).1
    = Return None.
Proof.
  split; [reflexivity|]. split; [exact I|]. split; [by vm_compute|]. split.
  - apply (get_returns_none User [("name", VStr "z")] one_user);
      [reflexivity|exact I|by vm_compute].
  - split; [exact I|]. split; [by vm_compute|]. split; [by eexists|].
    apply (get_returns_none User [("name", VStr "a")] one_user);
      [reflexivity|exact I|by vm_compute|by eexists].
Defined.


Lemma create_then_get_witness :
  faults one_user = [] ∧
  NoDup [("name", VStr "b"); ("flag", VBool true)].*1 ∧
  typed (model User) [("name", VStr "b"); ("flag", VBool true)] ∧
  id_available [("name", VStr "b"); ("flag", VBool true)] (db one_user) ∧
  ∃ obj n w1,
    _create User [("name", VStr "b"); ("flag", VBool true)] one_user
      = (Return obj, w1) ∧
    key obj = Some n ∧
    (∀ k v, (k, v) ∈ [("name", VStr "b"); ("flag", VBool true)] →
            col (attrs obj) k = v) ∧
    (_get User [("id", VInt n)] w1).1 = Return (Some obj).
Proof.
  assert (NoDup [("name", VStr "b"); ("flag", VBool true)].*1) as Hnd.
  { apply NoDup_cons. split; [|apply NoDup_singleton].
    by intros [=]%list_elem_of_singleton. }
  assert (id_available [("name", VStr "b"); ("flag", VBool true)] (db one_user))
    as Hid by (by exists 2).
  split; [reflexivity|]. split; [exact Hnd|]. split; [exact I|].
  split; [exact Hid|].
  apply (create_then_get User [("name", VStr "b"); ("flag", VBool true)] one_user);
    [reflexivity|exact Hnd|exact I|exact Hid].
Defined.

Lemma delete_all_then_get_all_witness :
  faults users_ab = [] ∧
  ∃ w1,
    _delete_all User users_ab = (Return tt, w1) ∧ db w1 = [] ∧
    (_get_all User [] w1).1 = Return [].
Proof.
  split; [reflexivity|]. apply (delete_all_then_get_all User users_ab).
  reflexivity.
Defined.

Lemma update_sets_first_field_witness :
  faults users_ab = [] ∧
  filter (λ x, has_id 1 x) (db users_ab) = [user_a] ∧
  "name" ≠ "id" ∧
  typed (model User) [("name", VStr "c")] ∧
  ∃ r' w1,
    _update User (load user_a) [("name", VStr "c"); ("flag", VBool true)] users_ab
      = (Return (Some (load r')), w1) ∧
    (∀ c', col r' c' = if decide (c' = "name") then VStr "c" else col user_a c') ∧
    filter (λ x, has_id 1 x) (db w1) = [r'] ∧
    filter (λ x, ¬ has_id 1 x) (db w1) = filter (λ x, ¬ has_id 1 x) (db users_ab).
Proof.
  split; [reflexivity|]. split; [by vm_compute|]. split; [discriminate|].
  split; [exact I|].
  apply (update_sets_first_field User user_a 1 "name" (VStr "c")
           [("flag", VBool true)] users_ab);
    [reflexivity|by vm_compute|discriminate|exact I].
Defined.

Lemma create_taken_id_witness :
  typed (model User) [("id", VInt 1); ("name", VStr "z")] ∧
  getitem [("id", VInt 1); ("name", VStr "z")] "id" = Some (VInt 1) ∧
  1 ∈ ids (db one_user) ∧
  (_create User [("id", VInt 1); ("name", VStr "z")] one_user).1 =
    Raise (TypeError (Low IntegrityError)) ∧
  db (_create User [("id", VInt 1); ("name", VStr "z")] one_user).2
    = db one_user.
Proof.
  assert (1 ∈ ids (db one_user)) as Hin by (vm_compute; left).
  split; [exact I|]. split; [reflexivity|]. split; [exact Hin|].
  apply (create_taken_id User [("id", VInt 1); ("name", VStr "z")] 1 one_user);
    [exact I|reflexivity|exact Hin].
Defined.

Lemma create_if_not_exists_finds_witness :
  filter (λ r, matches [("name", VStr "a")] r) (db two_users) ≠ [] ∧
  db (_create_if_not_exists User [("name", VStr "a")] two_users).2
    = db two_users ∧
  ∀ obj,
    (_create_if_not_exists User [("name", VStr "a")] two_users).1
      ≠ Return (obj, true).
Proof.
  assert (filter (λ r, matches [("name", VStr "a")] r) (db two_users) ≠ [])
    as Hne by (by vm_compute).
  split; [exact Hne|].
  apply (create_if_not_exists_finds User [("name", VStr "a")] two_users).
  exact Hne.
Defined.

Lemma keyed_users_ab : keyed (db users_ab).
Proof.
  split.
  - repeat constructor; by eexists.
  - vm_compute. apply NoDup_cons. split; [|apply NoDup_singleton].
    by intros [=]%list_elem_of_singleton.
Defined.

Lemma writes_keep_keys_witness :
  keyed (db users_ab) ∧
  keyed (db (_create User [("id", VInt 2)] users_ab).2) ∧
  keyed (db (_update User (load user_a) [("id", VInt 2)] users_ab).2) ∧
  keyed (db (_delete User (load user_a) users_ab).2) ∧
  keyed (db (_delete_all User users_ab).2) ∧
  keyed (db (_create_if_not_exists User [("id", VInt 2)] users_ab).2).
Proof.
  split; [exact keyed_users_ab|].
  apply (writes_keep_keys User [("id", VInt 2)] (load user_a) users_ab).
  exact keyed_users_ab.
Defined.

Lemma delete_removes_key_witness :
  faults users_ab = [] ∧
  key (load user_a) = Some 1 ∧
  ∃ w1,
    _delete User (load user_a) users_ab = (Return tt, w1) ∧
    (∀ r, r ∈ db w1 ↔ r ∈ db users_ab ∧ ident r ≠ Some 1) ∧
    (1 ∉ ids (db users_ab) → db w1 = db users_ab).
Proof.
  split; [reflexivity|]. split; [reflexivity|].
  apply (delete_removes_key User (load user_a) 1 users_ab); reflexivity.
Defined.

Lemma update_without_row_witness :
  key (load user_b) = Some 2 ∧
  (2 ∉ ids (db one_user)) ∧
  [("name", VStr "c")] ≠ [] ∧
  (∃ e, (_update User (load user_b) [("name", VStr "c")] one_user).1 =
          Raise (TypeError (Low e))) ∧
  db (_update User (load user_b) [("name", VStr "c")] one_user).2 = db one_user.
Proof.
  assert (2 ∉ ids (db one_user)) as Hout.
  { vm_compute. by intros [=]%list_elem_of_singleton. }
  split; [reflexivity|]. split; [exact Hout|]. split; [discriminate|].
  apply (update_without_row User (load user_b) 2 [("name", VStr "c")] one_user);
    [reflexivity|exact Hout|discriminate].
Defined.

Lemma get_all_selects_witness :
  faults users_ab = [] ∧
  typed (model User) [("name", VStr "b")] ∧
  ∃ l,
    (_get_all User [("name", VStr "b")] users_ab).1 = Return l ∧
    l ≡ₚ load <$> filter (λ r, matches [("name", VStr "b")] r) (db users_ab) ∧
    (∀ o, o ∈ l ↔
       ∃ r, r ∈ db users_ab ∧ o = load r ∧
            ∀ k v, (k, v) ∈ [("name", VStr "b")] → col r k = v) ∧
    ([("name", VStr "b")] = [] → l ≡ₚ load <$> db users_ab).
Proof.
  split; [reflexivity|]. split; [exact I|].
  apply (get_all_selects User [("name", VStr "b")] users_ab);
    [reflexivity|exact I].
Defined.

Lemma get_follows_get_all_witness :
  faults two_users = [] ∧
  typed (model User) [("name", VStr "a")] ∧
  ∃ l,
    (_get_all User [("name", VStr "a")] two_users).1 = Return l ∧
    match l with
    | [] => (_get User [("name", VStr "a")] two_users).1 = Return None
    | [o] => (_get User [("name", VStr "a")] two_users).1 = Return (Some o)
    | _ =>
        (_get User [("name", VStr "a")] two_users).1 =
          Raise (TypeError (Low MultipleResultsFound))
    end.
Proof.
  split; [reflexivity|]. split; [exact I|].
  apply (get_follows_get_all User [("name", VStr "a")] two_users);
    [reflexivity|exact I].
Defined.

Lemma delete_unsaved_witness :
  key (transient [("name", VStr "z")]) = None ∧
  (_delete User (transient [("name", VStr "z")]) one_user).1 =
    Raise (TypeError (Low InvalidRequestError)) ∧
  db (_delete User (transient [("name", VStr "z")]) one_user).2 = db one_user.
Proof.
  split; [reflexivity|].
  apply (delete_unsaved User (transient [("name", VStr "z")]) one_user).
  reflexivity.
Defined.

Lemma writes_commit_whole_or_nothing_witness :
  NoDup [("name", VStr "c")].*1 ∧
  typed (model User) [("name", VStr "c")] ∧
  id_available [("name", VStr "c")] (db users_ab) ∧
  key (load user_a) = Some 1 ∧
  match _create User [("name", VStr "c")] users_ab with
  | (Return o, w1) =>
      ∃ r, (db w1 = db users_ab ++ [r] ∧
            (∃ n, ident r = Some n ∧ n ∉ ids (db users_ab)) ∧
            ∀ c v, (c, v) ∈ [("name", VStr "c")] → col r c = v) ∧
           o = load r
  | (Raise _, w1) =>
      db w1 = db users_ab ∨
      ∃ r, db w1 = db users_ab ++ [r] ∧
           (∃ n, ident r = Some n ∧ n ∉ ids (db users_ab)) ∧
           ∀ c v, (c, v) ∈ [("name", VStr "c")] → col r c = v
  end ∧
  match _delete User (load user_a) users_ab with
  | (Return _, w1) => db w1 = filter (λ r, ident r ≠ Some 1) (db users_ab)
  | (Raise _, w1) => db w1 = db users_ab
  end ∧
  match _delete_all User users_ab with
  | (Return _, w1) => db w1 = []
  | (Raise _, w1) => db w1 = db users_ab
  end.
Proof.
  assert (NoDup [("name", VStr "c")].*1) as Hnd by (apply NoDup_singleton).
  assert (id_available [("name", VStr "c")] (db users_ab)) as Hid
    by (by exists 3).
  split; [exact Hnd|]. split; [exact I|]. split; [exact Hid|].
  split; [reflexivity|].
  apply (writes_commit_whole_or_nothing User [("name", VStr "c")]
           (load user_a) 1 users_ab);
    [exact Hnd|exact I|exact Hid|reflexivity].
Defined.
